(** * parseRanges: page-range specifications of pdf-tool

    A shallow embedding of [src/parseRanges.js] (and of the second copy of
    the same function that sits at the end of [src/app.js]) together with
    the properties the design document states about it.

    Conventions of the embedding.
    - A JavaScript string is the list of its UTF-16 code units, each a
      number in [N].  [str] turns an ASCII literal into such a list.
    - A JavaScript Number that holds an integer is a [Z]; [NaN] is [None]
      in an [option Z].  This is exact on the safe integers (absolute value
      below 2^53), the only ones a page count or a typed page number
      reaches in practice; rounding of longer numerals is outside the
      model, and the statements about numbers typed by the user carry the
      bound.
    - The array [out] and the [Set] [seen] are mutated in place by the
      source; here they are threaded through explicitly ([out] as a list
      that grows at its end, [seen] as a [gset Z]).  [Heap] runs the same
      code on a store of objects that are updated in place, and [Faults]
      adds the two faults of the run time, a full array and a full
      [Set]. *)

From Stdlib Require Import ZArith NArith List Ascii String Lia.
From stdpp Require Import base gmap sets list.

#[local] Set Warnings "-clear-no-such-hyp".
Open Scope Z_scope.

(** ** Strings as code-unit sequences *)

Definition str (s : string) : list N :=
  List.map N_of_ascii (list_ascii_of_string s).
Arguments str s%_string.

(** [\d] of the regular expressions, and the digits [parseInt] accepts in
    radix 10: the code units of 0 .. 9. *)
Definition is_digit (c : N) : bool := ((48 <=? c) && (c <=? 57))%N.

(** [\s], [String.prototype.trim] and the leading trim of [parseInt] all
    use the same class: ECMAScript WhiteSpace and LineTerminator. *)
Definition is_ws (c : N) : bool :=
  ((9 <=? c) && (c <=? 13)          (* TAB LF VT FF CR *)
   || (c =? 32)                     (* SPACE *)
   || (c =? 160)                    (* NO-BREAK SPACE *)
   || (c =? 5760)                   (* U+1680 *)
   || ((8192 <=? c) && (c <=? 8202))  (* U+2000 .. U+200A *)
   || (c =? 8232) || (c =? 8233)    (* LINE / PARAGRAPH SEPARATOR *)
   || (c =? 8239) || (c =? 8287)    (* U+202F, U+205F *)
   || (c =? 12288)                  (* U+3000 *)
   || (c =? 65279))%N.              (* U+FEFF *)

Definition hyphen : N := 45.
Definition plus_sign : N := 43.
Definition comma : N := 44.

Section Scanning.
Context {A : Type} (p : A -> bool).

Fixpoint takeWhile (l : list A) : list A :=
  match l with
  | [] => []
  | x :: r => if p x then x :: takeWhile r else []
  end.

Fixpoint dropWhile (l : list A) : list A :=
  match l with
  | [] => []
  | x :: r => if p x then dropWhile r else l
  end.

(** Whether the first element of [l] (if any) satisfies [p]. *)
Definition starts (l : list A) : bool :=
  match l with
  | x :: _ => p x
  | [] => false
  end.

End Scanning.

(** [String.prototype.trim]. *)
Definition trim (s : list N) : list N :=
  rev (dropWhile is_ws (rev (dropWhile is_ws s))).

(** [s.split(',')]: the segments between commas; never an empty array. *)
Fixpoint split_comma (s : list N) : list (list N) :=
  match s with
  | [] => [[]]
  | c :: r =>
      if (c =? comma)%N then [] :: split_comma r
      else match split_comma r with
           | seg :: segs => (c :: seg) :: segs
           | [] => [[c]]
           end
  end.

(** [Boolean(x)] on a string: false exactly for the empty string. *)
Definition truthy (s : list N) : bool :=
  match s with [] => false | _ :: _ => true end.

(** ** parseInt(_, 10) *)

(** The mathematical value of a run of decimal digits, most significant
    digit first. *)
Definition digits_value (ds : list N) : Z :=
  fold_left (fun v d => 10 * v + (Z.of_N d - 48)) ds 0.

(** [parseInt(s, 10)]: skip leading white space, read an optional sign,
    then the longest run of digits; [NaN] when that run is empty.  What
    follows the digits is ignored. *)
Definition parseInt (s : list N) : option Z :=
  let s1 := dropWhile is_ws s in
  let '(sign, s2) :=
    match s1 with
    | c :: r => if (c =? hyphen)%N then (-1, r)
                else if (c =? plus_sign)%N then (1, r)
                else (1, s1)
    | [] => (1, s1)
    end in
  match takeWhile is_digit s2 with
  | [] => None
  | ds => Some (sign * digits_value ds)
  end.

(** ** The three patterns

    In each pattern the classes that follow one another ([\d], [\s], the
    hyphen, the end of input) are pairwise disjoint, so the only way a
    greedy quantifier can match is on the longest run: the backtracking
    matcher and the scanners below accept the same strings with the same
    capture groups. *)

(** [part.match(/^(\d+)\s*-\s*(\d+)$/)]: groups 1 and 2, or [None] for
    [null]. *)
Definition match_closed (part : list N) : option (list N * list N) :=
  match takeWhile is_digit part with
  | [] => None
  | g1 =>
      match dropWhile is_ws (dropWhile is_digit part) with
      | c :: r =>
          if (c =? hyphen)%N then
            let r' := dropWhile is_ws r in
            match takeWhile is_digit r', dropWhile is_digit r' with
            | (_ :: _) as g2, [] => Some (g1, g2)
            | _, _ => None
            end
          else None
      | [] => None
      end
  end.

(** [part.match(/^(\d+)\s*-\s*$/)]: group 1. *)
Definition match_open_end (part : list N) : option (list N) :=
  match takeWhile is_digit part with
  | [] => None
  | g1 =>
      match dropWhile is_ws (dropWhile is_digit part) with
      | c :: r =>
          if (c =? hyphen)%N then
            match dropWhile is_ws r with
            | [] => Some g1
            | _ :: _ => None
            end
          else None
      | [] => None
      end
  end.

(** [part.match(/^\s*-\s*(\d+)$/)]: group 1. *)
Definition match_open_start (part : list N) : option (list N) :=
  match dropWhile is_ws part with
  | c :: r =>
      if (c =? hyphen)%N then
        let r' := dropWhile is_ws r in
        match takeWhile is_digit r', dropWhile is_digit r' with
        | (_ :: _) as g1, [] => Some g1
        | _, _ => None
        end
      else None
  | [] => None
  end.

(** A match result used as a condition: [null] is falsy, a match array
    truthy. *)
Definition matched {A : Type} (m : option A) : bool :=
  match m with Some _ => true | None => false end.

(** ** The body of parseRanges *)

(** [for(let i=a;i<=b;i++) out.push(i)].  The recursion is on a counter
    that only bounds the number of iterations; [for_push_enough] shows that
    the counter [parseRanges] passes is never what stops the loop. *)
Fixpoint for_push (fuel : nat) (i b : Z) (out : list Z) : list Z :=
  match fuel with
  | O => out
  | S fuel' => if i <=? b then for_push fuel' (i + 1) b (out ++ [i]) else out
  end.

Definition iterations (a b : Z) : nat := Z.to_nat (b + 1 - a).

(** The statements shared by both branches that found a range: the [NaN]
    guard, the swap, the clamp and the loop. *)
Definition push_range (maxPages : Z) (a b : option Z) (out : list Z) : list Z :=
  match a, b with
  | Some a, Some b =>
      let '(a, b) := if a >? b then (b, a) else (a, b) in
      let a := Z.max 1 a in
      let b := Z.min maxPages b in
      for_push (iterations a b) a b out
  | _, _ => out                       (* continue *)
  end.

(** The [else] branch: a bare value. *)
Definition push_single (maxPages : Z) (part : list N) (out : list Z) : list Z :=
  match parseInt part with
  | Some n => if (1 <=? n) && (n <=? maxPages) then out ++ [n] else out
  | None => out
  end.

(** One turn of the [for ... of] loop of [src/parseRanges.js]. *)
Definition process_part (maxPages : Z) (out : list Z) (part : list N) : list Z :=
  let closedRange := match_closed part in
  let openEndRange := match_open_end part in
  let openStartRange := match_open_start part in
  if matched closedRange || matched openEndRange || matched openStartRange
  then
    let a := Some 1 in
    let b := Some maxPages in
    let '(a, b) :=
      match closedRange, openEndRange, openStartRange with
      | Some (g1, g2), _, _ => (parseInt g1, parseInt g2)
      | None, Some g1, _ => (parseInt g1, b)
      | None, None, Some g1 => (a, parseInt g1)
      | None, None, None => (a, b)
      end in
    push_range maxPages a b out
  else push_single maxPages part out.

(** [s.split(',').map(x=>x.trim()).filter(Boolean)]. *)
Definition parts (s : list N) : list (list N) :=
  List.filter truthy (List.map trim (split_comma s)).

(** The array [out] when the loop over the parts is done. *)
Definition working (s : list N) (maxPages : Z) : list Z :=
  fold_left (process_part maxPages) (parts s) [].

(** [out.filter(p=> (seen.has(p)?false:(seen.add(p),true)))]: the callback
    reads and extends [seen], which is threaded from one element to the
    next. *)
Fixpoint filter_unseen (seen : gset Z) (out : list Z) : list Z :=
  match out with
  | [] => []
  | p :: rest =>
      if bool_decide (p ∈ seen) then filter_unseen seen rest
      else p :: filter_unseen ({[p]} ∪ seen) rest
  end.

(** [parseRanges(str, maxPages)] of [src/parseRanges.js].  On a string
    [String(str||'')] is [str] itself. *)
Definition parseRanges (str : list N) (maxPages : Z) : list Z :=
  let s := trim str in
  if negb (truthy s) then []
  else filter_unseen ∅ (working s maxPages).

(** The copy of the function at the end of [src/app.js]: it knows the
    closed-range pattern only. *)
Module App.

Definition process_part (maxPages : Z) (out : list Z) (part : list N) : list Z :=
  let m := match_closed part in
  match m with
  | Some (g1, g2) => push_range maxPages (parseInt g1) (parseInt g2) out
  | None => push_single maxPages part out
  end.

Definition working (s : list N) (maxPages : Z) : list Z :=
  fold_left (process_part maxPages) (parts s) [].

Definition parseRanges (str : list N) (maxPages : Z) : list Z :=
  let s := trim str in
  if negb (truthy s) then []
  else filter_unseen ∅ (working s maxPages).

End App.

(** ** Decimal numerals

    The design document writes tokens such as ["a-b"] or ["k-"] for
    integers [a], [b], [k]: the token that holds their decimal numerals.
    [decimal n] is that numeral (what [String(n)] gives for a non-negative
    integer), built from the least significant digit. *)

Fixpoint decimal_rev (fuel : nat) (n : Z) : list N :=
  match fuel with
  | O => []
  | S fuel' =>
      Z.to_N (48 + n mod 10)
        :: (if n <? 10 then [] else decimal_rev fuel' (n / 10))
  end.

Definition decimal (n : Z) : list N :=
  rev (decimal_rev (S (Z.to_nat (Z.log2 n))) n).

(** ** Vocabulary of the statements *)


(** The interval a range token is cut to: [lo] and [hi] are the values of
    [a] and [b] after the swap and the clamp. *)
Definition lo (a b : Z) : Z := Z.max 1 (Z.min a b).
Definition hi (maxPages a b : Z) : Z := Z.min maxPages (Z.max a b).

(** The pages of the interval from [from] to [to], ascending. *)
Definition pages (from to : Z) : list Z := seqZ from (to + 1 - from).

(** [n>=1 && n<=maxPages]. *)
Definition in_bounds (maxPages n : Z) : bool := (1 <=? n) && (n <=? maxPages).

(** Every page of [l] lies between 1 and [maxPages]. *)
Definition valid_pages (maxPages : Z) (l : list Z) : Prop :=
  Forall (fun v => 1 <= v <= maxPages) l.

(** A specification that is one token: not empty, no white space at
    either end, no comma. *)
Definition no_comma (s : list N) : bool :=
  forallb (fun c => negb (c =? comma)%N) s.

Definition one_token (s : list N) : bool :=
  truthy s && negb (starts is_ws s) && negb (starts is_ws (rev s))
  && no_comma s.

(** A token that one of the two open-range patterns matches. *)
Definition open_range (part : list N) : bool :=
  matched (match_open_end part) || matched (match_open_start part).

(** First-occurrence de-duplication as the design document words it: the
    entry at position [i] stays exactly when its value does not occur at an
    earlier position; the entries that stay keep their relative order. *)
Definition first_at (l : list Z) (i : nat) : option Z :=
  match l !! i with
  | Some v => if bool_decide (v ∈ take i l) then None else Some v
  | None => None
  end.

Definition first_occurrences (l : list Z) : list Z :=
  omap (first_at l) (seq 0 (length l)).

(** ["a-b"], ["a-"] and ["-b"] for non-negative integers [a] and [b]. *)
Definition closed_token (a b : Z) : list N := decimal a ++ hyphen :: decimal b.
Definition open_end_token (a : Z) : list N := decimal a ++ [hyphen].
Definition open_start_token (b : Z) : list N := hyphen :: decimal b.

(** ** The call with the faults of the run time

    The definitions above give the value a call returns.  The only
    operations of the source that can throw are the two that grow a
    container: [out.push(i)] and [seen.add(p)].  [Faults] is the same code
    with these two faults; [None] stands for the [RangeError] that ends the
    call.  (Running out of memory ends the process, not the call, and is
    not modelled.) *)
Module Faults.

(** An array holds at most 2^32 - 1 elements: [push] on a full array
    throws (ECMAScript, the length of an array is below 2^32). *)
Definition max_array_length : Z := 2 ^ 32 - 1.

(** A [Set] holds at most [Set_capacity] elements: [add] of a new element
    to a full [Set] throws.  The language sets no limit; 2^24 is that of
    the V8 engine (Node, Chrome). *)
Definition Set_capacity : Z := 2 ^ 24.

(** [out.push(i)]. *)
Definition push (out : list Z) (i : Z) : option (list Z) :=
  if Z.of_nat (length out) <? max_array_length then Some (out ++ [i])
  else None.

(** [for(let i=a;i<=b;i++) out.push(i)]. *)
Fixpoint for_push (fuel : nat) (i b : Z) (out : list Z) : option (list Z) :=
  match fuel with
  | O => Some out
  | S fuel' =>
      if i <=? b then
        match push out i with
        | Some out' => for_push fuel' (i + 1) b out'
        | None => None
        end
      else Some out
  end.

Definition push_range (maxPages : Z) (a b : option Z) (out : list Z)
    : option (list Z) :=
  match a, b with
  | Some a, Some b =>
      let '(a, b) := if a >? b then (b, a) else (a, b) in
      let a := Z.max 1 a in
      let b := Z.min maxPages b in
      for_push (iterations a b) a b out
  | _, _ => Some out                  (* continue *)
  end.

Definition push_single (maxPages : Z) (part : list N) (out : list Z)
    : option (list Z) :=
  match parseInt part with
  | Some n => if (1 <=? n) && (n <=? maxPages) then push out n else Some out
  | None => Some out
  end.

(** One turn of the loop over the parts. *)
Definition process_part (maxPages : Z) (out : list Z) (part : list N)
    : option (list Z) :=
  let closedRange := match_closed part in
  let openEndRange := match_open_end part in
  let openStartRange := match_open_start part in
  if matched closedRange || matched openEndRange || matched openStartRange
  then
    let a := Some 1 in
    let b := Some maxPages in
    let '(a, b) :=
      match closedRange, openEndRange, openStartRange with
      | Some (g1, g2), _, _ => (parseInt g1, parseInt g2)
      | None, Some g1, _ => (parseInt g1, b)
      | None, None, Some g1 => (a, parseInt g1)
      | None, None, None => (a, b)
      end in
    push_range maxPages a b out
  else push_single maxPages part out.

(** The loop over the parts: a fault in one turn ends the call. *)
Definition working (s : list N) (maxPages : Z) : option (list Z) :=
  fold_left
    (fun out part =>
       match out with
       | Some out => process_part maxPages out part
       | None => None
       end)
    (parts s) (Some []).

(** The filter: [seen.add(p)] throws when [seen] is full. *)
Fixpoint filter_unseen (seen : gset Z) (out : list Z) : option (list Z) :=
  match out with
  | [] => Some []
  | p :: rest =>
      if bool_decide (p ∈ seen) then filter_unseen seen rest
      else if Z.of_nat (size seen) <? Set_capacity then
        match filter_unseen ({[p]} ∪ seen) rest with
        | Some kept => Some (p :: kept)
        | None => None
        end
      else None
  end.

Definition parseRanges (str : list N) (maxPages : Z) : option (list Z) :=
  let s := trim str in
  if negb (truthy s) then Some []
  else
    match working s maxPages with
    | Some out => filter_unseen ∅ out
    | None => None
    end.

End Faults.


(** ** The call on a store of objects

    The call mutates two objects, the array [out] and the set [seen], and
    returns a third, the array that [filter] creates.  [Heap] is the same
    code on an explicit store: objects live at locations, a variable holds
    a location, [push] and [add] update the object at a location in place,
    and a call starts on whatever store earlier calls have left. *)
Module Heap.

Inductive object : Type :=
  | Arr (elems : list Z)
  | SetObj (members : gset Z).

(** The store: the objects created so far; a location is an index. *)
Abbreviation heap := (list object) (only parsing).
Abbreviation loc := nat (only parsing).

(** [[]] and [new Set()]: a new object, at a location not yet in use. *)
Definition alloc (o : object) (h : heap) : loc * heap := (length h, h ++ [o]).

(** The elements of the array at [l]. *)
Definition elements (l : loc) (h : heap) : list Z :=
  match h !! l with
  | Some (Arr elems) => elems
  | _ => []
  end.

(** [arr.push(i)], in place.  (The code pushes to arrays only; on another
    object the model leaves the store as it is.) *)
Definition push (l : loc) (i : Z) (h : heap) : heap :=
  match h !! l with
  | Some (Arr elems) => <[l := Arr (elems ++ [i])]> h
  | _ => h
  end.

(** [seen.has(p)]. *)
Definition Set_has (l : loc) (p : Z) (h : heap) : bool :=
  match h !! l with
  | Some (SetObj members) => bool_decide (p ∈ members)
  | _ => false
  end.

(** [seen.add(p)], in place. *)
Definition Set_add (l : loc) (p : Z) (h : heap) : heap :=
  match h !! l with
  | Some (SetObj members) => <[l := SetObj ({[p]} ∪ members)]> h
  | _ => h
  end.

(** [for(let i=a;i<=b;i++) out.push(i)]. *)
Fixpoint for_push (fuel : nat) (i b : Z) (out : loc) (h : heap) : heap :=
  match fuel with
  | O => h
  | S fuel' =>
      if i <=? b then for_push fuel' (i + 1) b out (push out i h) else h
  end.

Definition push_range (maxPages : Z) (a b : option Z) (out : loc) (h : heap)
    : heap :=
  match a, b with
  | Some a, Some b =>
      let '(a, b) := if a >? b then (b, a) else (a, b) in
      let a := Z.max 1 a in
      let b := Z.min maxPages b in
      for_push (iterations a b) a b out h
  | _, _ => h                         (* continue *)
  end.

Definition push_single (maxPages : Z) (part : list N) (out : loc) (h : heap)
    : heap :=
  match parseInt part with
  | Some n => if (1 <=? n) && (n <=? maxPages) then push out n h else h
  | None => h
  end.

(** One turn of the loop over the parts. *)
Definition process_part (maxPages : Z) (out : loc) (h : heap)
    (part : list N) : heap :=
  let closedRange := match_closed part in
  let openEndRange := match_open_end part in
  let openStartRange := match_open_start part in
  if matched closedRange || matched openEndRange || matched openStartRange
  then
    let a := Some 1 in
    let b := Some maxPages in
    let '(a, b) :=
      match closedRange, openEndRange, openStartRange with
      | Some (g1, g2), _, _ => (parseInt g1, parseInt g2)
      | None, Some g1, _ => (parseInt g1, b)
      | None, None, Some g1 => (a, parseInt g1)
      | None, None, None => (a, b)
      end in
    push_range maxPages a b out h
  else push_single maxPages part out h.

(** The turns of [out.filter(...)] over the elements of [out]: the callback
    reads and extends the set at [seen]; [filter] appends the elements it
    keeps to the array at [res]. *)
Fixpoint filter_turns (seen res : loc) (elems : list Z) (h : heap) : heap :=
  match elems with
  | [] => h
  | p :: rest =>
      if Set_has seen p h then filter_turns seen res rest h
      else filter_turns seen res rest (push res p (Set_add seen p h))
  end.

(** [parseRanges(str, maxPages)] on the store [h]: the location of the
    array it returns, and the store it leaves. *)
Definition parseRanges (str : list N) (maxPages : Z) (h : heap)
    : loc * heap :=
  let '(out, h) := alloc (Arr []) h in
  let s := trim str in
  if negb (truthy s) then (out, h)
  else
    let h := fold_left (process_part maxPages out) (parts s) h in
    let '(seen, h) := alloc (SetObj ∅) h in
    let '(res, h) := alloc (Arr []) h in
    (res, filter_turns seen res (elements out h) h).

End Heap.

(** * src/app.js

    The functions of the application file that compute on strings, numbers
    and arrays.  What touches the page (the DOM, the PDF libraries, files
    and storage) is not modelled; where a tool handler mixes both, the
    definitions below are the statements of the handler that compute the
    page numbers, indices or labels it then hands to the libraries. *)

(** ** escapeHtml *)

(** The object literal of the replacement callback: the entity of each of
    the five characters of the class of the pattern (ampersand, less-than,
    greater-than, double quote, apostrophe). *)
Definition entity (ch : N) : option (list N) :=
  if (ch =? 38)%N then Some (str "&amp;")
  else if (ch =? 60)%N then Some (str "&lt;")
  else if (ch =? 62)%N then Some (str "&gt;")
  else if (ch =? 34)%N then Some (str "&quot;")
  else if (ch =? 39)%N then Some (str "&#39;")
  else None.

(** What one character becomes. *)
Definition escape_char (ch : N) : list N :=
  match entity ch with Some e => e | None => [ch] end.

(** [String(s).replace(pattern, ch => ({...}[ch]))] on a string, the
    pattern being global: every character of the class is replaced by its
    entity, the others stay. *)
Definition escapeHtml (s : list N) : list N := flat_map escape_char s.

(** The characters of the class. *)
Definition special (ch : N) : bool := matched (entity ch).

(** The six cases of [escape_char], with the entities spelled out in code
    units. *)
Inductive escape_case (ch : N) : list N -> Prop :=
  | escape_amp : ch = 38%N -> escape_case ch [38; 97; 109; 112; 59]%N
  | escape_lt : ch = 60%N -> escape_case ch [38; 108; 116; 59]%N
  | escape_gt : ch = 62%N -> escape_case ch [38; 103; 116; 59]%N
  | escape_quot : ch = 34%N -> escape_case ch [38; 113; 117; 111; 116; 59]%N
  | escape_apos : ch = 39%N -> escape_case ch [38; 35; 51; 57; 59]%N
  | escape_other :
      ch <> 38%N -> ch <> 60%N -> ch <> 62%N -> ch <> 34%N -> ch <> 39%N ->
      escape_case ch [ch].

(** ** hashHue *)

(** [h = (h*31 + s.charCodeAt(i)) >>> 0] for every code unit, then
    [h % 360].  [>>> 0] keeps the low 32 bits. *)
Definition hashHue (str : list N) : Z :=
  let s := str in
  let h := fold_left (fun h c => (h * 31 + Z.of_N c) mod 2 ^ 32) s 0 in
  h mod 360.

(** ** luhn (inside the PII scan tool) *)

(** [sum += n] and [n *= 2] on numbers that may be [NaN]. *)
Definition num_add (a b : option Z) : option Z :=
  match a, b with
  | Some a, Some b => Some (a + b)
  | _, _ => None
  end.

(** [if(alt){ n *= 2; if(n > 9) n -= 9; }] on a number that is not [NaN]. *)
Definition luhn_digit (alt : bool) (n : Z) : Z :=
  if alt then
    let n := n * 2 in
    if n >? 9 then n - 9 else n
  else n.

(** The loop of [luhn], from the last character to the first: [ds] holds
    the characters still to visit, the last one of the string first. *)
Fixpoint luhn_loop (ds : list N) (sum : option Z) (alt : bool) : option Z :=
  match ds with
  | [] => sum
  | c :: ds' =>
      let n := parseInt [c] in
      let n := option_map (luhn_digit alt) n in
      luhn_loop ds' (num_add sum n) (negb alt)
  end.

(** [luhn(digits)]: [(sum % 10) === 0], which is false when [sum] is
    [NaN]. *)
Definition luhn (digits : list N) : bool :=
  match luhn_loop (rev digits) (Some 0) false with
  | Some sum => Z.rem sum 10 =? 0
  | None => false
  end.

(** The filter callback on the credit-card candidates:
    [digits = x.replace(/\D/g,'')], the length test, then [luhn]. *)
Definition card_filter (x : list N) : bool :=
  let digits := List.filter is_digit x in
  if (length digits <? 13)%nat || (19 <? length digits)%nat then false
  else luhn digits.

(** ** uniq (inside the PII scan tool) *)

(** A [Set] of strings keeps its elements in insertion order; adding an
    element that is there already changes nothing. *)
Definition Set_add (x : list N) (s : list (list N)) : list (list N) :=
  if bool_decide (x ∈ s) then s else s ++ [x].

(** [new Set(arr)]. *)
Definition new_Set (arr : list (list N)) : list (list N) :=
  fold_left (fun s x => Set_add x s) arr [].

(** [uniq(arr)] on an array: [Array.from(s).slice(0, 500)]. *)
Definition uniq (arr : list (list N)) : list (list N) :=
  take 500 (new_Set arr).

(** The strings of [arr] that do not occur earlier in [arr], in the order
    in which they stand there: entry [i] stays exactly when its string is
    not among the entries before it. *)
Definition first_text_at (arr : list (list N)) (i : nat)
    : option (list N) :=
  match arr !! i with
  | Some x => if bool_decide (x ∈ take i arr) then None else Some x
  | None => None
  end.

Definition first_texts (arr : list (list N)) : list (list N) :=
  omap (first_text_at arr) (seq 0 (length arr)).

(** ** Option fields *)

(** [value || dflt] on strings: the empty string is falsy. *)
Definition or_text (value dflt : list N) : list N :=
  if truthy value then value else dflt.

(** [n || dflt] on numbers: [NaN] and 0 are falsy. *)
Definition or_number (n : option Z) (dflt : Z) : Z :=
  match n with
  | Some v => if v =? 0 then dflt else v
  | None => dflt
  end.

(** [Math.max(lowest, parseInt(value || text, 10) || dflt)], the way the
    tool handlers read their numeric fields. *)
Definition read_int (lowest : Z) (text : list N) (dflt : Z) (value : list N) : Z :=
  Z.max lowest (or_number (parseInt (or_text value text)) dflt).

(** ** Page selections of the tool handlers *)

(** [Array.from({length:n}, (_,i)=>f(i))]. *)
Definition Array_from (n : Z) (f : Z -> Z) : list Z := f <$> seqZ 0 n.

(** The handlers call the global [parseRanges].  Both
    [src/parseRanges.js] and the end of [src/app.js] declare a function of
    that name and store it in [window.parseRanges]; which of the two the
    handlers reach depends on the scripts the page loads and on their
    order.  The handlers are modelled for either binding. *)
Inductive binding : Type :=
  | of_module
  | of_app.

Definition global_parseRanges (g : binding) : list N -> Z -> list Z :=
  match g with
  | of_module => parseRanges
  | of_app => App.parseRanges
  end.

(** Extract: [pages = parseRanges(value, max)], the test that throws
    [No valid pages selected.] (here [None]), then
    [indices = pages.map(p=>p-1)]. *)
Definition extract_indices (g : binding) (value : list N) (max : Z)
    : option (list Z) :=
  let pages := global_parseRanges g value max in
  if (length pages =? 0)%nat then None
  else Some ((fun p => p - 1) <$> pages).

(** Rotate: the pages whose rotation is set; a blank field means all. *)
Definition rotate_pages (g : binding) (value : list N) (max : Z) : list Z :=
  let v := trim value in
  if truthy v then global_parseRanges g v max
  else Array_from max (fun i => i + 1).

(** Bulk sign: the pages that get the signature; a blank field means the
    last page. *)
Definition sign_pages (g : binding) (value : list N) (pageCount : Z)
    : list Z :=
  let pagesStr := trim value in
  if truthy pagesStr then global_parseRanges g pagesStr pageCount
  else [pageCount].

(** Reverse: [indices = Array.from({length:max}, (_,i)=>max-1-i)]. *)
Definition reverse_indices (max : Z) : list Z :=
  Array_from max (fun i => max - 1 - i).

(** Odd / even: the loop that collects the indices.  The counter bounds
    the iterations as in [for_push]; the loop stops on [i < max]. *)
Fixpoint odd_even_loop (fuel : nat) (i max : Z) (mode : list N)
    (indices : list Z) : list Z :=
  match fuel with
  | O => indices
  | S fuel' =>
      if i <? max then
        let p := i + 1 in
        let indices :=
          if bool_decide (mode = str "odd") && (Z.rem p 2 =? 1)
          then indices ++ [i] else indices in
        let indices :=
          if bool_decide (mode = str "even") && (Z.rem p 2 =? 0)
          then indices ++ [i] else indices in
        odd_even_loop fuel' (i + 1) max mode indices
      else indices
  end.

(** [mode = String(value||'odd')] and the loop from 0. *)
Definition odd_even_indices (value : list N) (max : Z) : list Z :=
  let mode := or_text value (str "odd") in
  odd_even_loop (Z.to_nat max) 0 max mode [].

(** ** Reorder *)

(** The three errors the handler throws. *)
Inductive order_error : Type :=
  | wrong_length      (* Order must include exactly max pages. *)
  | has_duplicates    (* Order contains duplicates. *)
  | invalid_number.   (* Order contains invalid page numbers. *)

(** [value.split(',').map(s=>parseInt(s.trim(),10)).filter(n=>Number.isFinite(n))]:
    the numbers that are not [NaN], in order.  (A numeral of more than 300
    digits would read as an infinite Number and be filtered out as well;
    such numerals are outside the model, as are all numbers that are not
    safe integers.) *)
Definition order_seq (value : list N) : list Z :=
  omap (fun s => parseInt (trim s)) (split_comma value).

(** The checks of the handler, in their order, and the indices it copies
    when they pass. *)
Definition reorder_indices (value : list N) (max : Z) : order_error + list Z :=
  let seq := order_seq value in
  if negb (Z.of_nat (length seq) =? max) then inl wrong_length
  else
    let set : gset Z := list_to_set seq in
    if negb (Z.of_nat (size set) =? max) then inl has_duplicates
    else if existsb (fun n => (n <? 1) || (n >? max)) seq then inl invalid_number
    else inr ((fun n => n - 1) <$> seq).

(** ** The file list *)

Record File : Type := { file_name : list N; file_size : Z; file_type : list N }.

(** [addFiles(files)]: a file is pushed to [state.files] unless a file of
    the same name and size is there already.  The list is the state before
    and after. *)
Definition addFiles (files : list File) (state_files : list File) : list File :=
  fold_left
    (fun st f =>
       if existsb (fun x => bool_decide (file_name x = file_name f)
                            && (file_size x =? file_size f)) st
       then st else st ++ [f])
    files state_files.

(** ** Bates numbers

    Numbers are doubles, and a string has a largest length that depends
    on the engine.  The model of the label covers the range in which
    neither shows: sums that are safe integers (below 2^53), where the sum
    of two integers is exact and [String] gives its decimal numeral, and
    strings of at most [max_string_length] characters, which every
    current engine builds.  Outside that range the definitions give
    [None]: there the code goes on with a rounded sum, or the engine throws
    a [RangeError]. *)

Definition max_safe_integer : Z := 2 ^ 53 - 1.

(** The least of the largest string lengths of current engines. *)
Definition max_string_length : Z := 2 ^ 28 - 16.

(** [a + b] on two integers that are not negative. *)
Definition safe_sum (a b : Z) : option Z :=
  if (0 <=? a) && (0 <=? b) && (a + b <=? max_safe_integer)
  then Some (a + b) else None.

(** A string that the engine builds. *)
Definition built (s : list N) : option (list N) :=
  if Z.of_nat (length s) <=? max_string_length then Some s else None.

(** [s.padStart(targetLength, fill)] with a filler of one character. *)
Definition padStart (targetLength : Z) (fill : N) (s : list N)
    : option (list N) :=
  built (replicate (Z.to_nat (targetLength - Z.of_nat (length s))) fill ++ s).

(** [String(start + i).padStart(zeros, '0')] for the page of index [i]. *)
Definition bates_number (start zeros i : Z) : option (list N) :=
  match safe_sum start i with
  | Some n => padStart zeros 48 (decimal n)
  | None => None
  end.

(** [label = prefix + n]. *)
Definition bates_label (prefix : list N) (start zeros i : Z)
    : option (list N) :=
  match bates_number start zeros i with
  | Some n => built (prefix ++ n)
  | None => None
  end.

(** ** Vocabulary of the statements about src/app.js *)

(** The value [hashHue] reduces: the polynomial in 31 of the code units. *)
Definition horner31 (s : list N) : Z :=
  fold_left (fun h c => h * 31 + Z.of_N c) s 0.

(** The sum [luhn] computes on a string of digits, by the position of each
    digit from the right. *)
Fixpoint luhn_sum (ds : list N) (alt : bool) : Z :=
  match ds with
  | [] => 0
  | c :: ds' => luhn_digit alt (Z.of_N c - 48) + luhn_sum ds' (negb alt)
  end.

(** Two files the list takes for the same one. *)
Definition same_file (x f : File) : Prop :=
  file_name x = file_name f /\ file_size x = file_size f.

(** A page order written out: the decimal numerals of [ns], separated by
    commas. *)
Fixpoint comma_join (ns : list Z) : list N :=
  match ns with
  | [] => []
  | [n] => decimal n
  | n :: rest => decimal n ++ comma :: comma_join rest
  end.

(** What identifies a file in the list. *)
Definition file_key (f : File) : list N * Z := (file_name f, file_size f).

(** ** Remove blank pages *)

(** The first loop of the handler: the pages from [p] to [maxPages] whose
    text has at least [minChars] characters are kept.  [text_length p] is
    the length of the text the PDF library returns for page [p]; the
    counter bounds the iterations, the loop stops on [p <= maxPages]. *)
Fixpoint keep_scan (fuel : nat) (p maxPages minChars : Z)
    (text_length : Z -> Z) (keep : list Z) : list Z :=
  match fuel with
  | O => keep
  | S fuel' =>
      if p <=? maxPages then
        keep_scan fuel' (p + 1) maxPages minChars text_length
          (if text_length p >=? minChars then keep ++ [p - 1] else keep)
      else keep
  end.

(** The second loop: the pages after the cap are kept as they are. *)
Fixpoint keep_rest (fuel : nat) (p numPages : Z) (keep : list Z) : list Z :=
  match fuel with
  | O => keep
  | S fuel' =>
      if p <=? numPages then keep_rest fuel' (p + 1) numPages (keep ++ [p - 1])
      else keep
  end.

(** [maxPages = maxCap ? Math.min(pdf.numPages, maxCap) : pdf.numPages]. *)
Definition scan_limit (numPages maxCap : Z) : Z :=
  if maxCap =? 0 then numPages else Z.min numPages maxCap.

(** The indices the handler copies, from the two fields and the text
    lengths of the pages. *)
Definition blank_keep (minchars maxpages : list N) (numPages : Z)
    (text_length : Z -> Z) : list Z :=
  let minChars := read_int 0 (str "1") 0 minchars in
  let maxCap := read_int 0 (str "0") 0 maxpages in
  let maxPages := scan_limit numPages maxCap in
  let keep := keep_scan (Z.to_nat maxPages) 1 maxPages minChars text_length [] in
  keep_rest (Z.to_nat (numPages - maxPages)) (maxPages + 1) numPages keep.

(** ** Output names *)

(** Whether [c] is the letter of code [lower] in either case, the way a
    letter of a pattern with the [i] flag matches. *)
Definition letter_i (lower c : N) : bool := ((c =? lower) || (c =? lower - 32))%N.

(** [name.replace(/\.pdf$/i, '')]: the last four characters go when they
    are a dot and the letters p, d, f in either case. *)
Definition strip_pdf (name : list N) : list N :=
  match rev name with
  | f :: d :: p :: dot :: stem =>
      if (dot =? 46)%N && letter_i 112 p && letter_i 100 d && letter_i 102 f
      then rev stem else name
  | _ => name
  end.

(** [file.name.replace(/\.pdf$/i,'') + suffix], the name of the download;
    [suffix] is [-extract.pdf], [-rotated.pdf] and so on. *)
Definition output_name (name suffix : list N) : list N := strip_pdf name ++ suffix.

(** ** CSV fields (categorize report, when the CSV library is absent) *)

(** [esc(v)] on a string: the value between two double quotes (code 34),
    every double quote inside it doubled. *)
Definition csv_esc (v : list N) : list N :=
  [34%N] ++ flat_map (fun c => if (c =? 34)%N then [34; 34]%N else [c]) v
         ++ [34%N].

(** How often the double quote occurs in a text. *)
Definition quotes (s : list N) : nat := length (List.filter (N.eqb 34) s).

(** * Properties *)

(** ** Scanning *)

Section ScanningFacts.
Context {A : Type} (p : A -> bool).

Lemma takeWhile_dropWhile l : takeWhile p l ++ dropWhile p l = l.
Proof.
  induction l as [|x r IH]; simpl; [done|].
  destruct (p x); simpl; by f_equal.
Qed.

Lemma takeWhile_forallb l : forallb p (takeWhile p l) = true.
Proof.
  induction l as [|x r IH]; simpl; [done|].
  destruct (p x) eqn:E; simpl; [by rewrite E|done].
Qed.

Lemma starts_dropWhile l : starts p (dropWhile p l) = false.
Proof.
  induction l as [|x r IH]; simpl; [done|].
  destruct (p x) eqn:E; simpl; done.
Qed.

Lemma takeWhile_app l r :
  forallb p l = true -> starts p r = false -> takeWhile p (l ++ r) = l.
Proof.
  induction l as [|y l IH]; simpl; intros Hl Hr.
  - destruct r as [|x r]; simpl in *; [done|by rewrite Hr].
  - apply andb_prop in Hl as [Hy Hl]. rewrite Hy. f_equal. auto.
Qed.

Lemma dropWhile_app l r :
  forallb p l = true -> starts p r = false -> dropWhile p (l ++ r) = r.
Proof.
  induction l as [|y l IH]; simpl; intros Hl Hr.
  - destruct r as [|x r]; simpl in *; [done|by rewrite Hr].
  - apply andb_prop in Hl as [Hy Hl]. rewrite Hy. auto.
Qed.

Lemma takeWhile_none l : starts p l = false -> takeWhile p l = [].
Proof. intros H. apply (takeWhile_app [] l); done. Qed.

Lemma dropWhile_none l : starts p l = false -> dropWhile p l = l.
Proof. intros H. apply (dropWhile_app [] l); done. Qed.

Lemma takeWhile_all l : forallb p l = true -> takeWhile p l = l.
Proof.
  intros H. rewrite <- (app_nil_r l) at 1. by apply takeWhile_app.
Qed.

Lemma dropWhile_all l : forallb p l = true -> dropWhile p l = [].
Proof.
  intros H. rewrite <- (app_nil_r l) at 1. by apply dropWhile_app.
Qed.
End ScanningFacts.

(** ** Character classes *)

Ltac decide_cmp :=
  repeat match goal with
    | |- context [(?a <=? ?b)%N] =>
        first [ rewrite (proj2 (N.leb_le a b)) by lia
              | rewrite (proj2 (N.leb_gt a b)) by lia ]
    | |- context [(?a =? ?b)%N] =>
        first [ rewrite (proj2 (N.eqb_eq a b)) by lia
              | rewrite (proj2 (N.eqb_neq a b)) by lia ]
    end.

Lemma is_digit_range c : is_digit c = true <-> (48 <= c <= 57)%N.
Proof.
  unfold is_digit. rewrite andb_true_iff, !N.leb_le. tauto.
Qed.

Lemma digit_not_ws c : is_digit c = true -> is_ws c = false.
Proof. intros H%is_digit_range. unfold is_ws. decide_cmp. reflexivity. Qed.

Lemma digit_not_hyphen c : is_digit c = true -> (c =? hyphen)%N = false.
Proof. intros H%is_digit_range. unfold hyphen. by decide_cmp. Qed.

Lemma digit_not_plus c : is_digit c = true -> (c =? plus_sign)%N = false.
Proof. intros H%is_digit_range. unfold plus_sign. by decide_cmp. Qed.

Lemma digit_not_comma c : is_digit c = true -> (c =? comma)%N = false.
Proof. intros H%is_digit_range. unfold comma. by decide_cmp. Qed.

Lemma ws_not_digit c : is_ws c = true -> is_digit c = false.
Proof.
  intros H. destruct (is_digit c) eqn:E; [|done].
  apply digit_not_ws in E. congruence.
Qed.

Lemma ws_not_hyphen c : is_ws c = true -> (c =? hyphen)%N = false.
Proof.
  intros H. destruct (N.eqb_spec c hyphen) as [->|]; [|done]. discriminate H.
Qed.

Lemma ws_not_comma c : is_ws c = true -> (c =? comma)%N = false.
Proof.
  intros H. destruct (N.eqb_spec c comma) as [->|]; [|done]. discriminate H.
Qed.

(** ** Numerals *)

Lemma forallb_rev {A} (p : A -> bool) l : forallb p (rev l) = forallb p l.
Proof.
  induction l as [|x l IH]; [done|].
  cbn [rev forallb]. rewrite forallb_app, IH. cbn. rewrite andb_true_r.
  apply andb_comm.
Qed.

Lemma digits_value_snoc ds d :
  digits_value (ds ++ [d]) = 10 * digits_value ds + (Z.of_N d - 48).
Proof. unfold digits_value. by rewrite fold_left_app. Qed.

Lemma digits_value_nonneg ds :
  forallb is_digit ds = true -> 0 <= digits_value ds.
Proof.
  induction ds as [|d ds IH] using rev_ind; [done|].
  rewrite forallb_app, andb_true_iff. simpl. rewrite andb_true_r.
  intros [Hds Hd%is_digit_range]. rewrite digits_value_snoc.
  specialize (IH Hds). lia.
Qed.

Lemma decimal_rev_digits fuel n :
  0 <= n -> forallb is_digit (decimal_rev fuel n) = true.
Proof.
  revert n. induction fuel as [|fuel IH]; intros n Hn; [done|].
  simpl. apply andb_true_iff. split.
  - apply is_digit_range. pose proof (Z.mod_pos_bound n 10). lia.
  - destruct (Z.ltb_spec n 10); [done|]. apply IH. apply Z.div_pos; lia.
Qed.

Lemma decimal_rev_value fuel n :
  0 <= n < 2 ^ Z.of_nat fuel ->
  digits_value (rev (decimal_rev fuel n)) = n.
Proof.
  revert n. induction fuel as [|fuel IH]; intros n Hn.
  - simpl in Hn. assert (n = 0) by lia. by subst.
  - cbn [decimal_rev rev]. rewrite digits_value_snoc.
    pose proof (Z.mod_pos_bound n 10 ltac:(lia)) as Hm.
    rewrite Z2N.id by lia.
    destruct (Z.ltb_spec n 10) as [Hlt|Hge].
    + cbn. rewrite Z.mod_small by lia. lia.
    + rewrite IH.
      * pose proof (Z.div_mod n 10 ltac:(lia)). lia.
      * split; [apply Z.div_pos; lia|].
        apply Z.div_lt_upper_bound; [lia|].
        rewrite Nat2Z.inj_succ, Z.pow_succ_r in Hn by lia. lia.
Qed.

Lemma decimal_digits n : 0 <= n -> forallb is_digit (decimal n) = true.
Proof.
  intros Hn. unfold decimal. rewrite forallb_rev.
  by apply decimal_rev_digits.
Qed.

Lemma decimal_nonempty n : decimal n <> [].
Proof.
  unfold decimal. cbn [decimal_rev rev]. intros H.
  by apply app_eq_nil in H as [_ ?].
Qed.

Lemma digits_value_decimal n : 0 <= n -> digits_value (decimal n) = n.
Proof.
  intros Hn. unfold decimal. apply decimal_rev_value. split; [done|].
  destruct (Z.eq_dec n 0) as [->|Hne]; [done|].
  rewrite Nat2Z.inj_succ, Z2Nat.id by apply Z.log2_nonneg.
  apply Z.log2_spec. lia.
Qed.

Example decimal_120 : decimal 120 = str "120".
Proof. reflexivity. Qed.

(** ** What the scanners do on tokens of a known shape *)

Lemma starts_digit_false_ws w r :
  forallb is_ws w = true -> starts is_digit r = false ->
  starts is_digit (w ++ r) = false.
Proof.
  destruct w as [|c w]; [done|]. simpl.
  intros [Hc _]%andb_prop _. by apply ws_not_digit.
Qed.

Lemma starts_ws_false_digits ds r :
  ds <> [] -> forallb is_digit ds = true -> starts is_ws (ds ++ r) = false.
Proof.
  destruct ds as [|c ds]; [done|]. simpl.
  intros _ [Hc _]%andb_prop. by apply digit_not_ws.
Qed.

(** A run of digits followed by something that is not a digit is read by
    [parseInt] as the value of the run. *)
Lemma parseInt_digits ds r :
  ds <> [] -> forallb is_digit ds = true -> starts is_digit r = false ->
  parseInt (ds ++ r) = Some (digits_value ds).
Proof.
  intros Hne Hds Hr. unfold parseInt.
  rewrite dropWhile_none by (by apply starts_ws_false_digits).
  destruct ds as [|d ds]; [done|]. cbn [app].
  pose proof Hds as Hd. cbn [forallb] in Hd. apply andb_prop in Hd as [Hd _].
  rewrite digit_not_hyphen, digit_not_plus by done.
  change (d :: ds ++ r) with ((d :: ds) ++ r).
  rewrite takeWhile_app by done.
  f_equal. lia.
Qed.

Lemma parseInt_group g :
  g <> [] -> forallb is_digit g = true -> parseInt g = Some (digits_value g).
Proof.
  intros. rewrite <- (app_nil_r g) at 1. by apply parseInt_digits.
Qed.

Section Shapes.
Variables g1 g2 w1 w2 : list N.
Hypothesis g1_ne : g1 <> [].
Hypothesis g1_digits : forallb is_digit g1 = true.
Hypothesis g2_ne : g2 <> [].
Hypothesis g2_digits : forallb is_digit g2 = true.
Hypothesis w1_ws : forallb is_ws w1 = true.
Hypothesis w2_ws : forallb is_ws w2 = true.

Lemma after_digits r :
  starts is_digit r = false ->
  takeWhile is_digit (g1 ++ r) = g1 /\ dropWhile is_digit (g1 ++ r) = r.
Proof. intros. by rewrite takeWhile_app, dropWhile_app. Qed.

Lemma hyphen_after_ws r :
  dropWhile is_ws (w1 ++ hyphen :: r) = hyphen :: r.
Proof. by apply dropWhile_app. Qed.

Lemma digits_after_ws : dropWhile is_ws (w2 ++ g2) = g2.
Proof.
  apply dropWhile_app; [done|].
  rewrite <- (app_nil_r g2). by apply starts_ws_false_digits.
Qed.

(** [<digits> - <digits>] *)
Lemma match_closed_shape :
  match_closed (g1 ++ w1 ++ hyphen :: w2 ++ g2) = Some (g1, g2).
Proof.
  unfold match_closed.
  destruct (after_digits (w1 ++ hyphen :: w2 ++ g2)) as [-> ->];
    [by apply starts_digit_false_ws|].
  rewrite hyphen_after_ws. cbn [N.eqb hyphen Pos.eqb].
  rewrite digits_after_ws, (takeWhile_all is_digit), (dropWhile_all is_digit) by done.
  destruct g1; [done|]. by destruct g2.
Qed.

(** [<digits> -] *)
Lemma match_open_end_shape :
  match_open_end (g1 ++ w1 ++ hyphen :: w2) = Some g1.
Proof.
  unfold match_open_end.
  destruct (after_digits (w1 ++ hyphen :: w2)) as [-> ->];
    [by apply starts_digit_false_ws|].
  rewrite hyphen_after_ws. cbn [N.eqb hyphen Pos.eqb].
  rewrite dropWhile_all by done. by destruct g1.
Qed.

Lemma match_closed_open_end :
  match_closed (g1 ++ w1 ++ hyphen :: w2) = None.
Proof.
  unfold match_closed.
  destruct (after_digits (w1 ++ hyphen :: w2)) as [-> ->];
    [by apply starts_digit_false_ws|].
  rewrite hyphen_after_ws. cbn [N.eqb hyphen Pos.eqb].
  rewrite dropWhile_all by done. by destruct g1.
Qed.

(** [- <digits>] *)
Lemma match_open_start_shape :
  match_open_start (w1 ++ hyphen :: w2 ++ g2) = Some g2.
Proof.
  unfold match_open_start.
  rewrite hyphen_after_ws. cbn [N.eqb hyphen Pos.eqb].
  rewrite digits_after_ws, (takeWhile_all is_digit), (dropWhile_all is_digit) by done. by destruct g2.
Qed.

Lemma not_digit_first r : takeWhile is_digit (w1 ++ hyphen :: r) = [].
Proof. apply takeWhile_none. by apply starts_digit_false_ws. Qed.

Lemma match_closed_open_start :
  match_closed (w1 ++ hyphen :: w2 ++ g2) = None.
Proof. unfold match_closed. by rewrite not_digit_first. Qed.

Lemma match_open_end_open_start :
  match_open_end (w1 ++ hyphen :: w2 ++ g2) = None.
Proof. unfold match_open_end. by rewrite not_digit_first. Qed.

(** A bare run of digits matches none of the three patterns. *)
Lemma match_closed_bare : match_closed g1 = None.
Proof.
  unfold match_closed. rewrite (takeWhile_all is_digit), (dropWhile_all is_digit) by done.
  by destruct g1.
Qed.

Lemma match_open_end_bare : match_open_end g1 = None.
Proof.
  unfold match_open_end. rewrite (takeWhile_all is_digit), (dropWhile_all is_digit) by done.
  by destruct g1.
Qed.

Lemma match_open_start_bare : match_open_start g1 = None.
Proof.
  unfold match_open_start.
  rewrite <- (app_nil_r g1).
  rewrite dropWhile_none by (by apply starts_ws_false_digits).
  destruct g1 as [|d g]; [done|]. cbn [app forallb] in *.
  apply andb_prop in g1_digits as [Hd _]. by rewrite digit_not_hyphen.
Qed.
End Shapes.

(** Conversely, the scanners accept nothing but the language of their
    pattern, and the groups they return are the runs of digits in it. *)

Lemma match_closed_sound part g1 g2 :
  match_closed part = Some (g1, g2) ->
  exists w1 w2,
    part = g1 ++ w1 ++ hyphen :: w2 ++ g2
    /\ g1 <> [] /\ forallb is_digit g1 = true
    /\ forallb is_ws w1 = true /\ forallb is_ws w2 = true
    /\ g2 <> [] /\ forallb is_digit g2 = true.
Proof.
  unfold match_closed.
  pose proof (takeWhile_dropWhile is_digit part) as Hpart.
  pose proof (takeWhile_forallb is_digit part) as Hg1.
  destruct (takeWhile is_digit part) as [|d g] eqn:E1; [done|].
  pose proof (takeWhile_dropWhile is_ws (dropWhile is_digit part)) as Hr0.
  pose proof (takeWhile_forallb is_ws (dropWhile is_digit part)) as Hw1.
  destruct (dropWhile is_ws (dropWhile is_digit part)) as [|c r]; [done|].
  destruct (N.eqb_spec c hyphen) as [->|]; [|done].
  pose proof (takeWhile_dropWhile is_ws r) as Hr.
  pose proof (takeWhile_forallb is_ws r) as Hw2.
  pose proof (takeWhile_dropWhile is_digit (dropWhile is_ws r)) as Hr'.
  pose proof (takeWhile_forallb is_digit (dropWhile is_ws r)) as Hg2.
  destruct (takeWhile is_digit (dropWhile is_ws r)) as [|d2 g'] eqn:E2; [done|].
  destruct (dropWhile is_digit (dropWhile is_ws r)); [|done].
  intros [= <- <-].
  exists (takeWhile is_ws (dropWhile is_digit part)), (takeWhile is_ws r).
  rewrite app_nil_r in Hr'. rewrite <- Hr' in Hr.
  split; [by rewrite Hr, Hr0, Hpart|done].
Qed.

Lemma match_open_end_sound part g1 :
  match_open_end part = Some g1 ->
  exists w1 w2,
    part = g1 ++ w1 ++ hyphen :: w2
    /\ g1 <> [] /\ forallb is_digit g1 = true
    /\ forallb is_ws w1 = true /\ forallb is_ws w2 = true.
Proof.
  unfold match_open_end.
  pose proof (takeWhile_dropWhile is_digit part) as Hpart.
  pose proof (takeWhile_forallb is_digit part) as Hg1.
  destruct (takeWhile is_digit part) as [|d g] eqn:E1; [done|].
  pose proof (takeWhile_dropWhile is_ws (dropWhile is_digit part)) as Hr0.
  pose proof (takeWhile_forallb is_ws (dropWhile is_digit part)) as Hw1.
  destruct (dropWhile is_ws (dropWhile is_digit part)) as [|c r]; [done|].
  destruct (N.eqb_spec c hyphen) as [->|]; [|done].
  pose proof (takeWhile_dropWhile is_ws r) as Hr.
  pose proof (takeWhile_forallb is_ws r) as Hw2.
  destruct (dropWhile is_ws r); [|done].
  intros [= <-].
  exists (takeWhile is_ws (dropWhile is_digit part)), (takeWhile is_ws r).
  rewrite app_nil_r in Hr. rewrite <- Hr in Hr0.
  split; [by rewrite Hr0, Hpart|done].
Qed.

Lemma match_open_start_sound part g1 :
  match_open_start part = Some g1 ->
  exists w1 w2,
    part = w1 ++ hyphen :: w2 ++ g1
    /\ forallb is_ws w1 = true /\ forallb is_ws w2 = true
    /\ g1 <> [] /\ forallb is_digit g1 = true.
Proof.
  unfold match_open_start.
  pose proof (takeWhile_dropWhile is_ws part) as Hpart.
  pose proof (takeWhile_forallb is_ws part) as Hw1.
  destruct (dropWhile is_ws part) as [|c r]; [done|].
  destruct (N.eqb_spec c hyphen) as [->|]; [|done].
  pose proof (takeWhile_dropWhile is_ws r) as Hr.
  pose proof (takeWhile_forallb is_ws r) as Hw2.
  pose proof (takeWhile_dropWhile is_digit (dropWhile is_ws r)) as Hr'.
  pose proof (takeWhile_forallb is_digit (dropWhile is_ws r)) as Hg.
  destruct (takeWhile is_digit (dropWhile is_ws r)) as [|d g] eqn:E; [done|].
  destruct (dropWhile is_digit (dropWhile is_ws r)); [|done].
  intros [= <-].
  exists (takeWhile is_ws part), (takeWhile is_ws r).
  rewrite app_nil_r in Hr'. rewrite <- Hr' in Hr.
  split; [by rewrite Hr, Hpart|done].
Qed.

(** So the [NaN] guard of the range branch never fires: a captured group
    always reads as a number. *)
Lemma parseInt_closed_groups part g1 g2 :
  match_closed part = Some (g1, g2) ->
  parseInt g1 = Some (digits_value g1) /\ parseInt g2 = Some (digits_value g2).
Proof.
  intros (w1 & w2 & _ & ? & ? & _ & _ & ? & ?)%match_closed_sound.
  by rewrite !parseInt_group.
Qed.

(** ** The counting loop *)

Lemma for_push_seqZ fuel i b out :
  (iterations i b <= fuel)%nat ->
  for_push fuel i b out = out ++ seqZ i (b + 1 - i).
Proof.
  unfold iterations. revert i out.
  induction fuel as [|fuel IH]; intros i out Hfuel; cbn [for_push].
  - rewrite seqZ_nil by lia. by rewrite app_nil_r.
  - destruct (Z.leb_spec i b) as [Hle|Hgt].
    + rewrite IH by lia. rewrite (seqZ_cons i) by lia.
      rewrite <- app_assoc. cbn [app]. do 3 f_equal. lia.
    + rewrite seqZ_nil by lia. by rewrite app_nil_r.
Qed.

(** The counter does not cut the loop short: any larger one gives the same
    array. *)
Lemma for_push_enough fuel i b out :
  (iterations i b <= fuel)%nat ->
  for_push fuel i b out = for_push (iterations i b) i b out.
Proof. intros H. by rewrite !for_push_seqZ. Qed.



(** ** One token *)

Lemma elem_of_pages from to v : v ∈ pages from to <-> from <= v <= to.
Proof. unfold pages. rewrite elem_of_seqZ. lia. Qed.

Lemma pages_empty from to : to < from -> pages from to = [].
Proof. intros. unfold pages. apply seqZ_nil. lia. Qed.

Lemma NoDup_pages from to : NoDup (pages from to).
Proof. apply NoDup_seqZ. Qed.

Lemma push_range_pages maxPages a b out :
  push_range maxPages (Some a) (Some b) out
  = out ++ pages (lo a b) (hi maxPages a b).
Proof.
  unfold push_range, lo, hi, pages.
  destruct (Z.gtb_spec a b) as [Hgt|Hle]; cbn zeta beta iota.
  - rewrite for_push_seqZ by done.
    by rewrite (Z.min_r a b), (Z.max_l a b) by lia.
  - rewrite for_push_seqZ by done.
    by rewrite (Z.min_l a b), (Z.max_r a b) by lia.
Qed.

Lemma push_range_swap maxPages a b out :
  push_range maxPages (Some a) (Some b) out
  = push_range maxPages (Some b) (Some a) out.
Proof.
  rewrite !push_range_pages. unfold lo, hi.
  by rewrite (Z.min_comm a b), (Z.max_comm a b).
Qed.

Lemma in_bounds_spec maxPages n :
  in_bounds maxPages n = true <-> 1 <= n <= maxPages.
Proof. unfold in_bounds. rewrite andb_true_iff, !Z.leb_le. tauto. Qed.

Section Tokens.
Variables (maxPages : Z) (out : list Z).
Variables g1 g2 w1 w2 : list N.
Hypothesis g1_ne : g1 <> [].
Hypothesis g1_digits : forallb is_digit g1 = true.
Hypothesis g2_ne : g2 <> [].
Hypothesis g2_digits : forallb is_digit g2 = true.
Hypothesis w1_ws : forallb is_ws w1 = true.
Hypothesis w2_ws : forallb is_ws w2 = true.

Lemma process_closed :
  process_part maxPages out (g1 ++ w1 ++ hyphen :: w2 ++ g2)
  = out ++ pages (lo (digits_value g1) (digits_value g2))
                 (hi maxPages (digits_value g1) (digits_value g2)).
Proof.
  unfold process_part. rewrite match_closed_shape by done.
  cbn [matched orb]. rewrite !parseInt_group by done.
  apply push_range_pages.
Qed.

Lemma process_open_end :
  process_part maxPages out (g1 ++ w1 ++ hyphen :: w2)
  = out ++ pages (lo (digits_value g1) maxPages)
                 (hi maxPages (digits_value g1) maxPages).
Proof.
  unfold process_part.
  rewrite match_closed_open_end, match_open_end_shape by done.
  cbn [matched orb]. rewrite parseInt_group by done.
  apply push_range_pages.
Qed.

Lemma process_open_start :
  process_part maxPages out (w1 ++ hyphen :: w2 ++ g2)
  = out ++ pages (lo 1 (digits_value g2)) (hi maxPages 1 (digits_value g2)).
Proof.
  unfold process_part.
  rewrite match_closed_open_start, match_open_end_open_start,
    match_open_start_shape by done.
  cbn [matched orb]. rewrite parseInt_group by done.
  apply push_range_pages.
Qed.

Lemma process_bare :
  process_part maxPages out g1
  = if in_bounds maxPages (digits_value g1)
    then out ++ [digits_value g1] else out.
Proof.
  unfold process_part.
  rewrite match_closed_bare, match_open_end_bare, match_open_start_bare
    by done.
  cbn [matched orb]. unfold push_single. by rewrite parseInt_group.
Qed.
End Tokens.

(** ** Tokens that only look like a range *)

Section RangeLike.
Variables (maxPages : Z) (out : list Z).
Variables (g1 w1 w2 : list N) (x : N) (r : list N).
Hypothesis g1_ne : g1 <> [].
Hypothesis g1_digits : forallb is_digit g1 = true.
Hypothesis w1_ws : forallb is_ws w1 = true.
Hypothesis w2_ws : forallb is_ws w2 = true.
Hypothesis x_not_digit : is_digit x = false.
Hypothesis x_not_ws : is_ws x = false.

Let part := g1 ++ w1 ++ hyphen :: w2 ++ x :: r.

Lemma range_like_after_hyphen : dropWhile is_ws (w2 ++ x :: r) = x :: r.
Proof. by apply dropWhile_app. Qed.

Lemma range_like_head :
  takeWhile is_digit part = g1
  /\ dropWhile is_ws (dropWhile is_digit part) = hyphen :: w2 ++ x :: r.
Proof.
  assert (starts is_digit (w1 ++ hyphen :: w2 ++ x :: r) = false)
    by (by apply starts_digit_false_ws).
  unfold part.
  rewrite (takeWhile_app is_digit), (dropWhile_app is_digit) by done.
  by rewrite (dropWhile_app is_ws).
Qed.

Lemma range_like_not_closed : match_closed part = None.
Proof.
  unfold match_closed. destruct range_like_head as [-> ->].
  cbn [N.eqb hyphen Pos.eqb]. rewrite range_like_after_hyphen.
  cbn [takeWhile]. rewrite x_not_digit. by destruct g1.
Qed.

Lemma range_like_not_open_end : match_open_end part = None.
Proof.
  unfold match_open_end. destruct range_like_head as [-> ->].
  cbn [N.eqb hyphen Pos.eqb]. rewrite range_like_after_hyphen.
  by destruct g1.
Qed.

Lemma range_like_not_open_start : match_open_start part = None.
Proof.
  unfold match_open_start, part.
  rewrite (dropWhile_none is_ws) by (by apply starts_ws_false_digits).
  destruct g1 as [|d g]; [done|]. cbn [app forallb] in *.
  apply andb_prop in g1_digits as [Hd _]. by rewrite digit_not_hyphen.
Qed.

Lemma range_like_token :
  match_closed part = None
  /\ match_open_end part = None
  /\ match_open_start part = None
  /\ process_part maxPages out part
     = if in_bounds maxPages (digits_value g1)
       then out ++ [digits_value g1] else out.
Proof.
  repeat split; [apply range_like_not_closed|apply range_like_not_open_end
                |apply range_like_not_open_start|].
  unfold process_part.
  rewrite range_like_not_closed, range_like_not_open_end,
    range_like_not_open_start.
  cbn [matched orb]. unfold push_single, part.
  rewrite parseInt_digits; [done..|].
  by apply starts_digit_false_ws.
Qed.
End RangeLike.

Lemma valid_pages_interval maxPages a b :
  valid_pages maxPages (pages (lo a b) (hi maxPages a b)).
Proof.
  apply Forall_forall. intros v Hv%elem_of_pages. unfold lo, hi in Hv. lia.
Qed.

Lemma push_range_appends maxPages a b out :
  exists added, push_range maxPages a b out = out ++ added
                /\ valid_pages maxPages added.
Proof.
  destruct a as [a|], b as [b|];
    try (exists []; split; [by rewrite app_nil_r|by constructor]).
  eexists. split; [apply push_range_pages|apply valid_pages_interval].
Qed.

Lemma push_single_appends maxPages part out :
  exists added, push_single maxPages part out = out ++ added
                /\ valid_pages maxPages added.
Proof.
  unfold push_single. destruct (parseInt part) as [n|];
    [|exists []; split; [by rewrite app_nil_r|by constructor]].
  destruct (in_bounds maxPages n) eqn:E; unfold in_bounds in E; rewrite E.
  - exists [n]. split; [done|]. apply in_bounds_spec in E.
    unfold valid_pages. constructor; [done|constructor].
  - exists []. split; [by rewrite app_nil_r|by constructor].
Qed.

Lemma process_part_appends maxPages out part :
  exists added, process_part maxPages out part = out ++ added
                /\ valid_pages maxPages added.
Proof.
  unfold process_part.
  destruct (matched _ || matched _ || matched _).
  - destruct (match_closed part) as [[? ?]|], (match_open_end part),
      (match_open_start part); apply push_range_appends.
  - apply push_single_appends.
Qed.

Lemma fold_process_appends maxPages ps out :
  exists added, fold_left (process_part maxPages) ps out = out ++ added
                /\ valid_pages maxPages added.
Proof.
  revert out. induction ps as [|part ps IH]; intros out; cbn [fold_left].
  - exists []. split; [by rewrite app_nil_r|by constructor].
  - destruct (process_part_appends maxPages out part) as (add1 & -> & H1).
    destruct (IH (out ++ add1)) as (add2 & -> & H2).
    exists (add1 ++ add2). split; [by rewrite app_assoc|].
    by apply Forall_app.
Qed.

Lemma working_valid s maxPages : valid_pages maxPages (working s maxPages).
Proof.
  unfold working.
  destruct (fold_process_appends maxPages (parts s) []) as (added & -> & H).
  done.
Qed.

(** ** The de-duplicating filter *)

Lemma elem_of_filter_unseen seen l v :
  v ∈ filter_unseen seen l <-> v ∈ l /\ v ∉ seen.
Proof.
  revert seen. induction l as [|p l IH]; intros seen; cbn [filter_unseen].
  - set_solver.
  - case_bool_decide as Hp.
    + rewrite IH. set_solver.
    + rewrite elem_of_cons, IH. rewrite elem_of_cons.
      destruct (decide (v = p)); set_solver.
Qed.

Lemma NoDup_filter_unseen seen l : NoDup (filter_unseen seen l).
Proof.
  revert seen. induction l as [|p l IH]; intros seen; cbn [filter_unseen].
  - constructor.
  - case_bool_decide as Hp; [apply IH|].
    apply NoDup_cons. split; [|apply IH].
    rewrite elem_of_filter_unseen. set_solver.
Qed.

Lemma filter_unseen_sublist seen l : sublist (filter_unseen seen l) l.
Proof.
  revert seen. induction l as [|p l IH]; intros seen; cbn [filter_unseen].
  - constructor.
  - case_bool_decide; [apply sublist_cons|apply sublist_skip]; apply IH.
Qed.

Lemma filter_unseen_id seen l :
  NoDup l -> (forall v, v ∈ l -> v ∉ seen) -> filter_unseen seen l = l.
Proof.
  revert seen. induction l as [|p l IH]; intros seen Hnd Hseen; [done|].
  cbn [filter_unseen]. apply NoDup_cons in Hnd as [Hp Hnd].
  rewrite bool_decide_eq_false_2 by (apply Hseen; left).
  f_equal. apply IH; [done|]. intros v Hv. set_solver.
Qed.

Lemma filter_unseen_idempotent l :
  filter_unseen ∅ (filter_unseen ∅ l) = filter_unseen ∅ l.
Proof. apply filter_unseen_id; [apply NoDup_filter_unseen|set_solver]. Qed.

Lemma filter_unseen_valid maxPages seen l :
  valid_pages maxPages l -> valid_pages maxPages (filter_unseen seen l).
Proof.
  unfold valid_pages. rewrite !Forall_forall.
  intros H v [Hv _]%elem_of_filter_unseen. auto.
Qed.

(** ** The whole function *)

Lemma parseRanges_working s maxPages :
  parseRanges s maxPages = filter_unseen ∅ (working (trim s) maxPages).
Proof.
  unfold parseRanges. destruct (trim s) eqn:E; [done|]. by cbn.
Qed.

Lemma split_comma_no_comma s : no_comma s = true -> split_comma s = [s].
Proof.
  induction s as [|c s IH]; [done|]. cbn [no_comma forallb split_comma].
  intros [Hc Hs]%andb_prop. apply negb_true_iff in Hc. rewrite Hc.
  by rewrite (IH Hs).
Qed.

Lemma trim_id s :
  starts is_ws s = false -> starts is_ws (rev s) = false -> trim s = s.
Proof.
  intros H1 H2. unfold trim.
  rewrite (dropWhile_none is_ws s), (dropWhile_none is_ws (rev s)) by done.
  apply rev_involutive.
Qed.

Lemma parseRanges_one_token s maxPages :
  one_token s = true ->
  parseRanges s maxPages = filter_unseen ∅ (process_part maxPages [] s).
Proof.
  unfold one_token. rewrite !andb_true_iff, !negb_true_iff.
  intros [[[Hne H1] H2] Hc].
  rewrite parseRanges_working. unfold working, parts.
  rewrite (trim_id s), split_comma_no_comma by done.
  cbn [List.map List.filter]. rewrite (trim_id s) by done.
  by rewrite Hne.
Qed.

Lemma no_comma_digits ds : forallb is_digit ds = true -> no_comma ds = true.
Proof.
  unfold no_comma. rewrite !forallb_forall. intros H c Hc.
  apply negb_true_iff, digit_not_comma. auto.
Qed.

Lemma unseen_pages from to : filter_unseen ∅ (pages from to) = pages from to.
Proof. apply filter_unseen_id; [apply NoDup_pages|set_solver]. Qed.

Section TokenStrings.
Variables g1 g2 : list N.
Hypothesis g1_ne : g1 <> [].
Hypothesis g1_digits : forallb is_digit g1 = true.
Hypothesis g2_ne : g2 <> [].
Hypothesis g2_digits : forallb is_digit g2 = true.

Lemma rev_digits_start r : starts is_ws (rev g2 ++ r) = false.
Proof.
  apply starts_ws_false_digits; [|by rewrite forallb_rev].
  intros H. apply g2_ne. by rewrite <- (rev_involutive g2), H.
Qed.

Lemma truthy_digits r : truthy (g1 ++ r) = true.
Proof. by destruct g1. Qed.

Lemma one_token_closed : one_token (g1 ++ hyphen :: g2) = true.
Proof.
  unfold one_token.
  rewrite truthy_digits, starts_ws_false_digits by done.
  rewrite rev_app_distr. cbn [rev]. rewrite <- app_assoc, rev_digits_start.
  unfold no_comma. rewrite forallb_app. cbn [forallb].
  fold (no_comma g1) (no_comma g2). by rewrite !no_comma_digits.
Qed.

Lemma one_token_open_start : one_token (hyphen :: g2) = true.
Proof.
  unfold one_token. cbn [truthy starts rev].
  rewrite rev_digits_start. cbn [no_comma forallb].
  fold (no_comma g2). by rewrite no_comma_digits.
Qed.

Lemma one_token_open_end : one_token (g1 ++ [hyphen]) = true.
Proof.
  unfold one_token.
  rewrite truthy_digits, starts_ws_false_digits by done.
  rewrite rev_app_distr. cbn [rev app starts].
  unfold no_comma. rewrite forallb_app. cbn [forallb].
  fold (no_comma g1). by rewrite no_comma_digits.
Qed.

Lemma one_token_bare : one_token g2 = true.
Proof.
  unfold one_token. rewrite <- (app_nil_r (rev g2)), rev_digits_start.
  rewrite no_comma_digits by done.
  destruct g2 as [|d g]; [done|]. cbn [forallb] in g2_digits.
  apply andb_prop in g2_digits as [Hd _]. cbn. by rewrite digit_not_ws.
Qed.

Variable maxPages : Z.

(** ["a-b"] *)
Lemma parseRanges_closed :
  parseRanges (g1 ++ hyphen :: g2) maxPages
  = pages (lo (digits_value g1) (digits_value g2))
          (hi maxPages (digits_value g1) (digits_value g2)).
Proof.
  rewrite parseRanges_one_token by apply one_token_closed.
  pose proof (process_closed maxPages [] g1 g2 [] []) as H.
  cbn [app forallb] in H. rewrite H by done.
  apply unseen_pages.
Qed.

(** ["a-"] *)
Lemma parseRanges_open_end :
  parseRanges (g1 ++ [hyphen]) maxPages
  = pages (lo (digits_value g1) maxPages)
          (hi maxPages (digits_value g1) maxPages).
Proof.
  rewrite parseRanges_one_token by apply one_token_open_end.
  pose proof (process_open_end maxPages [] g1 [] []) as H.
  cbn [app forallb] in H. rewrite H by done.
  apply unseen_pages.
Qed.

(** ["-b"] *)
Lemma parseRanges_open_start :
  parseRanges (hyphen :: g2) maxPages
  = pages (lo 1 (digits_value g2)) (hi maxPages 1 (digits_value g2)).
Proof.
  rewrite parseRanges_one_token by apply one_token_open_start.
  pose proof (process_open_start maxPages [] g2 [] []) as H.
  cbn [app forallb] in H. rewrite H by done.
  apply unseen_pages.
Qed.

(** ["n"] *)
Lemma parseRanges_bare :
  parseRanges g2 maxPages
  = if in_bounds maxPages (digits_value g2) then [digits_value g2] else [].
Proof.
  rewrite parseRanges_one_token by apply one_token_bare.
  rewrite process_bare by done.
  destruct (in_bounds _ _); by cbn.
Qed.
End TokenStrings.

(** ** First occurrences *)

Lemma first_at_middle pre p rest :
  first_at (pre ++ p :: rest) (length pre)
  = if bool_decide (p ∈ pre) then None else Some p.
Proof.
  unfold first_at. by rewrite list_lookup_middle, take_app_length.
Qed.

Lemma filter_unseen_first_from pre suf (seen : gset Z) :
  (forall v, v ∈ seen <-> v ∈ pre) ->
  filter_unseen seen suf
  = omap (first_at (pre ++ suf)) (seq (length pre) (length suf)).
Proof.
  revert pre seen. induction suf as [|p rest IH]; intros pre seen Hseen; [done|].
  cbn [filter_unseen length seq omap list_omap]. rewrite first_at_middle.
  rewrite (cons_middle p pre rest), app_assoc.
  assert (S (length pre) = length (pre ++ [p])) as ->
    by (rewrite length_app; cbn; lia).
  rewrite (bool_decide_ext (p ∈ seen) (p ∈ pre)) by apply Hseen.
  case_bool_decide as Hp.
  - apply IH. intros v. rewrite elem_of_app, list_elem_of_singleton, Hseen.
    split; [tauto|]. intros [?| ->]; done.
  - f_equal. apply IH. intros v.
    rewrite elem_of_union, elem_of_singleton, elem_of_app,
      list_elem_of_singleton, Hseen. tauto.
Qed.

Lemma filter_unseen_first l : filter_unseen ∅ l = first_occurrences l.
Proof. apply (filter_unseen_first_from [] l ∅). set_solver. Qed.

Example first_occurrences_ex :
  first_occurrences [3; 1; 3; 2; 1; 4] = [3; 1; 2; 4].
Proof. reflexivity. Qed.

(** ** Tokens written from integers *)

Example closed_token_3_1 : closed_token 3 1 = str "3-1".
Proof. reflexivity. Qed.

Example open_end_token_7 : open_end_token 7 = str "7-".
Proof. reflexivity. Qed.

Example open_start_token_3 : open_start_token 3 = str "-3".
Proof. reflexivity. Qed.

Lemma parseRanges_closed_token a b maxPages :
  0 <= a -> 0 <= b ->
  parseRanges (closed_token a b) maxPages = pages (lo a b) (hi maxPages a b).
Proof.
  intros Ha Hb. unfold closed_token.
  rewrite parseRanges_closed
    by (apply decimal_nonempty || by apply decimal_digits).
  by rewrite !digits_value_decimal.
Qed.

Lemma parseRanges_open_end_token a maxPages :
  0 <= a ->
  parseRanges (open_end_token a) maxPages
  = pages (lo a maxPages) (hi maxPages a maxPages).
Proof.
  intros Ha. unfold open_end_token.
  rewrite parseRanges_open_end
    by (apply decimal_nonempty || by apply decimal_digits).
  by rewrite !digits_value_decimal.
Qed.

Lemma parseRanges_open_start_token b maxPages :
  0 <= b ->
  parseRanges (open_start_token b) maxPages = pages (lo 1 b) (hi maxPages 1 b).
Proof.
  intros Hb. unfold open_start_token.
  rewrite parseRanges_open_start
    by (apply decimal_nonempty || by apply decimal_digits).
  by rewrite !digits_value_decimal.
Qed.

Lemma parseRanges_decimal n maxPages :
  0 <= n ->
  parseRanges (decimal n) maxPages = if in_bounds maxPages n then [n] else [].
Proof.
  intros Hn.
  rewrite parseRanges_bare
    by (apply decimal_nonempty || by apply decimal_digits).
  by rewrite !digits_value_decimal.
Qed.

Lemma parseRanges_valid s maxPages :
  valid_pages maxPages (parseRanges s maxPages).
Proof.
  rewrite parseRanges_working. apply filter_unseen_valid, working_valid.
Qed.

(** ** Intervals of pages *)

Lemma pages_one n : pages n n = [n].
Proof.
  unfold pages. rewrite seqZ_cons by lia. rewrite seqZ_nil by lia. done.
Qed.

(** ** The faults of the run time *)


















(** ** The call on a store of objects *)

Lemma Heap_push_at (h0 t : Heap.heap) e l i :
  l = length h0 ->
  Heap.push l i (h0 ++ Heap.Arr e :: t) = h0 ++ Heap.Arr (e ++ [i]) :: t.
Proof.
  intros ->. unfold Heap.push. rewrite list_lookup_middle by done.
  rewrite insert_app_r_alt by done. by rewrite Nat.sub_diag.
Qed.

Lemma Heap_elements_at (h0 t : Heap.heap) e l :
  l = length h0 -> Heap.elements l (h0 ++ Heap.Arr e :: t) = e.
Proof.
  intros ->. unfold Heap.elements. by rewrite list_lookup_middle.
Qed.

Lemma Heap_Set_has_at (h0 t : Heap.heap) m l p :
  l = length h0 ->
  Heap.Set_has l p (h0 ++ Heap.SetObj m :: t) = bool_decide (p ∈ m).
Proof.
  intros ->. unfold Heap.Set_has. by rewrite list_lookup_middle.
Qed.

Lemma Heap_Set_add_at (h0 t : Heap.heap) m l p :
  l = length h0 ->
  Heap.Set_add l p (h0 ++ Heap.SetObj m :: t)
  = h0 ++ Heap.SetObj ({[p]} ∪ m) :: t.
Proof.
  intros ->. unfold Heap.Set_add. rewrite list_lookup_middle by done.
  rewrite insert_app_r_alt by done. by rewrite Nat.sub_diag.
Qed.

Section HeapArray.
Variables (h0 t : Heap.heap) (out : Heap.loc).
Hypothesis out_at : out = length h0.

Lemma Heap_for_push fuel i b e :
  Heap.for_push fuel i b out (h0 ++ Heap.Arr e :: t)
  = h0 ++ Heap.Arr (for_push fuel i b e) :: t.
Proof.
  revert i e.
  induction fuel as [|fuel IH]; intros i e; cbn [Heap.for_push for_push];
    [done|].
  destruct (i <=? b); [|done]. by rewrite Heap_push_at, IH.
Qed.

Lemma Heap_push_range maxPages a b e :
  Heap.push_range maxPages a b out (h0 ++ Heap.Arr e :: t)
  = h0 ++ Heap.Arr (push_range maxPages a b e) :: t.
Proof.
  unfold Heap.push_range, push_range.
  destruct a as [a|], b as [b|]; try done.
  destruct (a >? b); apply Heap_for_push.
Qed.

Lemma Heap_push_single maxPages part e :
  Heap.push_single maxPages part out (h0 ++ Heap.Arr e :: t)
  = h0 ++ Heap.Arr (push_single maxPages part e) :: t.
Proof.
  unfold Heap.push_single, push_single.
  destruct (parseInt part) as [n|]; [|done].
  destruct ((1 <=? n) && (n <=? maxPages)); [|done]. by apply Heap_push_at.
Qed.

Lemma Heap_process_part maxPages part e :
  Heap.process_part maxPages out (h0 ++ Heap.Arr e :: t) part
  = h0 ++ Heap.Arr (process_part maxPages e part) :: t.
Proof.
  unfold Heap.process_part, process_part.
  destruct (matched _ || matched _ || matched _).
  - destruct (match_closed part) as [[? ?]|], (match_open_end part),
      (match_open_start part); apply Heap_push_range.
  - apply Heap_push_single.
Qed.

Lemma Heap_fold maxPages ps e :
  fold_left (Heap.process_part maxPages out) ps (h0 ++ Heap.Arr e :: t)
  = h0 ++ Heap.Arr (fold_left (process_part maxPages) ps e) :: t.
Proof.
  revert e. induction ps as [|part ps IH]; intros e; [done|].
  cbn [fold_left]. by rewrite Heap_process_part, IH.
Qed.

End HeapArray.

(** The turns of the filter leave every other object as it is, extend the
    set, and append to the new array what [filter_unseen] keeps. *)
Lemma Heap_filter_turns (h0 : Heap.heap) o seen res elems m acc :
  seen = S (length h0) -> res = S (S (length h0)) ->
  exists m',
    Heap.filter_turns seen res elems
      (h0 ++ [o; Heap.SetObj m; Heap.Arr acc])
    = h0 ++ [o; Heap.SetObj m'; Heap.Arr (acc ++ filter_unseen m elems)].
Proof.
  intros Hseen Hres. revert m acc.
  induction elems as [|p rest IH]; intros m acc;
    cbn [Heap.filter_turns filter_unseen].
  - exists m. by rewrite app_nil_r.
  - assert (forall m1 acc1,
      h0 ++ [o; Heap.SetObj m1; Heap.Arr acc1]
      = (h0 ++ [o]) ++ Heap.SetObj m1 :: [Heap.Arr acc1]) as Hset
      by (intros; by rewrite <- app_assoc).
    assert (forall m1 acc1,
      h0 ++ [o; Heap.SetObj m1; Heap.Arr acc1]
      = (h0 ++ [o; Heap.SetObj m1]) ++ Heap.Arr acc1 :: []) as Harr
      by (intros; by rewrite <- app_assoc).
    assert (seen = length (h0 ++ [o])) as Hs
      by (rewrite length_app; cbn; lia).
    assert (forall m1, res = length (h0 ++ [o; Heap.SetObj m1])) as Hr
      by (intros; rewrite length_app; cbn; lia).
    rewrite (Hset m acc), Heap_Set_has_at by done.
    case_bool_decide as Hp.
    + rewrite <- Hset. apply IH.
    + rewrite Heap_Set_add_at by done. rewrite <- Hset.
      rewrite (Harr ({[p]} ∪ m) acc), Heap_push_at by done.
      rewrite <- Harr.
      destruct (IH ({[p]} ∪ m) (acc ++ [p])) as [m' ->].
      exists m'. by rewrite <- app_assoc.
Qed.

(** The store a call leaves: the store it found, followed by the objects
    the call has created; the location it returns is that of the last. *)
Lemma Heap_parseRanges str maxPages h :
  Heap.parseRanges str maxPages h = (length h, h ++ [Heap.Arr []])
  /\ parseRanges str maxPages = []
  \/ exists seen,
      Heap.parseRanges str maxPages h
      = (S (S (length h)),
         h ++ [Heap.Arr (working (trim str) maxPages); Heap.SetObj seen;
               Heap.Arr (parseRanges str maxPages)]).
Proof.
  unfold Heap.parseRanges, parseRanges, Heap.alloc. cbn zeta.
  destruct (negb (truthy (trim str))); [by left|right].
  rewrite (Heap_fold h [] (length h)) by done.
  fold (working (trim str) maxPages).
  rewrite !length_app. cbn [length]. rewrite <- !app_assoc. cbn [app].
  rewrite Heap_elements_at
    by (rewrite ?length_app; cbn [length]; lia).
  destruct (Heap_filter_turns h (Heap.Arr (working (trim str) maxPages))
              (length h + 1)%nat (length h + 1 + 1)%nat
              (working (trim str) maxPages) ∅ [])
    as [m' Hm']; [lia|lia|].
  exists m'. rewrite Hm'. cbn [app]. f_equal. lia.
Qed.

(** * The claims of the design document *)

(** C1. The rows of the edge-case table: each listed call returns exactly
    the listed sequence. *)
Theorem C1_edge_case_table :
  parseRanges (str "1-3,5,7-8") 10 = [1; 2; 3; 5; 7; 8]
  /\ parseRanges (str " 1, 2 ,2, 3 ") 10 = [1; 2; 3]
  /\ parseRanges (str "0,1,5,12") 5 = [1; 5]
  /\ parseRanges (str "3-1") 5 = [1; 2; 3]
  /\ parseRanges (str "7-") 10 = [7; 8; 9; 10]
  /\ parseRanges (str "-3") 10 = [1; 2; 3]
  /\ parseRanges (str "") 10 = []
  /\ parseRanges (str "a,1-b,4") 10 = [1; 4].
Proof. repeat split; reflexivity. Qed.

(** C2, as the document states it, fails: the token ["1-b"] alone already
    yields page 1, and in ["a,1-b,4"] the page 1 of the result comes from
    that token (without it the result is [[4]]). *)
Lemma C2_token_1_b_yields_page_1 :
  parseRanges (str "1-b") 10 = [1]
  /\ parseRanges (str "a,1-b,4") 10 <> parseRanges (str "a,4") 10.
Proof. split; [reflexivity|discriminate]. Qed.

(** C2, amended.  A token made of digits, a hyphen and then something that
    is neither a digit nor white space matches none of the three range
    patterns and is never expanded as a range; it goes to the bare-value
    branch, where [parseInt] reads its leading digits.  It therefore
    contributes the single page those digits denote when that page lies
    between 1 and [maxPages], and nothing otherwise.  For ["1-b"]: page 1
    as soon as [maxPages] is at least 1. *)
Theorem C2_range_like_token_read_by_parseInt :
  (forall maxPages out g1 w1 w2 x r,
      g1 <> [] -> forallb is_digit g1 = true ->
      forallb is_ws w1 = true -> forallb is_ws w2 = true ->
      is_digit x = false -> is_ws x = false ->
      let part := g1 ++ w1 ++ hyphen :: w2 ++ x :: r in
      match_closed part = None
      /\ match_open_end part = None
      /\ match_open_start part = None
      /\ process_part maxPages out part
         = if in_bounds maxPages (digits_value g1)
           then out ++ [digits_value g1] else out)
  /\ (forall maxPages,
         parseRanges (str "1-b") maxPages = if 1 <=? maxPages then [1] else []).
Proof.
  split; [intros; by apply range_like_token|].
  intros maxPages. rewrite parseRanges_one_token by reflexivity.
  destruct (range_like_token maxPages [] [49%N] [] [] 98%N [])
    as (_ & _ & _ & H); try done.
  change ([49%N] ++ [] ++ hyphen :: [] ++ [98%N]) with (str "1-b") in H.
  rewrite H.
  change (in_bounds maxPages (digits_value [49%N])) with (1 <=? maxPages).
  by destruct (1 <=? maxPages).
Qed.

Lemma C2_range_like_token_witness :
  process_part 10 [] (str "1-b") = [1].
Proof.
  apply (proj1 C2_range_like_token_read_by_parseInt 10 [] [49%N] [] [] 98%N []);
    (discriminate || reflexivity).
Defined.

(** C3. Bounds invariant: for every specification and every upper bound
    that is not negative, every page of the result lies between 1 and the
    upper bound; with upper bound 0 the result is empty whatever the
    specification. *)
Theorem C3_bounds_invariant :
  (forall s maxPages,
      0 <= maxPages ->
      Forall (fun v => 1 <= v <= maxPages) (parseRanges s maxPages))
  /\ (forall s, parseRanges s 0 = []).
Proof.
  split; [intros; apply parseRanges_valid|].
  intros s. pose proof (parseRanges_valid s 0) as H. unfold valid_pages in H.
  destruct (parseRanges s 0) as [|v l]; [done|].
  apply Forall_cons in H as [Hv _]. lia.
Qed.

Lemma C3_bounds_invariant_witness :
  Forall (fun v => 1 <= v <= 5) (parseRanges (str "0-99, 7,3") 5).
Proof.
  apply (proj1 C3_bounds_invariant (str "0-99, 7,3") 5). lia.
Defined.




(** C5. Clamping against dropping, for every upper bound from 0 to below
    2^53.  The range of a token is the interval between its two bounds, in
    either order, where the bound that an open-ended token leaves out is
    [maxPages] and the bound that an open-start token leaves out is 1.
    Every token that the code takes as a range, closed, open-ended or
    open-start, appends the pages of its range that lie in 1 ..
    [maxPages], ascending: a range that sticks out is cut to the valid part
    (["0-2"] with 5 pages gives 1, 2; ["7-"] with 5 pages has the range
    5 .. 7 and gives 5) and a range that lies outside altogether appends
    nothing.  A token that is no range appends the value [n] that
    [parseInt] reads in it when [n] lies in 1 .. [maxPages] and nothing
    otherwise; it is never moved to the nearest valid page (["0"] with 5
    pages gives nothing). *)
Theorem C5_clamp_ranges_drop_singles maxPages :
  0 <= maxPages < 2 ^ 53 ->
  (parseRanges (str "0-2") 5 = [1; 2]
   /\ parseRanges (str "0") 5 = []
   /\ parseRanges (str "7-") 5 = [5])
  /\ (forall out part g1 g2,
         match_closed part = Some (g1, g2) ->
         process_part maxPages out part
         = out ++ pages (Z.max 1 (Z.min (digits_value g1) (digits_value g2)))
                        (Z.min maxPages
                               (Z.max (digits_value g1) (digits_value g2))))
  /\ (forall out part g1,
         match_open_end part = Some g1 ->
         process_part maxPages out part
         = out ++ pages (Z.max 1 (Z.min (digits_value g1) maxPages))
                        (Z.min maxPages (Z.max (digits_value g1) maxPages)))
  /\ (forall out part g1,
         match_open_start part = Some g1 ->
         process_part maxPages out part
         = out ++ pages (Z.max 1 (Z.min 1 (digits_value g1)))
                        (Z.min maxPages (Z.max 1 (digits_value g1))))
  /\ (forall out part,
         match_closed part = None -> match_open_end part = None ->
         match_open_start part = None ->
         process_part maxPages out part
         = match parseInt part with
           | Some n =>
               if (1 <=? n) && (n <=? maxPages) then out ++ [n] else out
           | None => out
           end)
  /\ (forall a b,
         0 <= a -> 0 <= b ->
         parseRanges (closed_token a b) maxPages
         = pages (Z.max 1 (Z.min a b)) (Z.min maxPages (Z.max a b)))
  /\ (forall a b,
         0 <= a -> 0 <= b ->
         Z.max a b < 1 \/ maxPages < Z.min a b ->
         parseRanges (closed_token a b) maxPages = [])
  /\ (forall a,
         0 <= a ->
         parseRanges (open_end_token a) maxPages
         = pages (Z.max 1 (Z.min a maxPages)) maxPages)
  /\ (forall a,
         1 <= maxPages < a ->
         parseRanges (open_end_token a) maxPages = [maxPages])
  /\ (forall b,
         0 <= b ->
         parseRanges (open_start_token b) maxPages
         = pages 1 (Z.min maxPages (Z.max 1 b)))
  /\ (forall n,
         0 <= n ->
         parseRanges (decimal n) maxPages
         = if (1 <=? n) && (n <=? maxPages) then [n] else []).
Proof.
  intros [HN _]. split; [by repeat split|].
  split; [|split; [|split; [|split; [|split; [|split; [|split;
    [|split; [|split]]]]]]]].
  - intros out part g1 g2 H.
    apply match_closed_sound in H
      as (w1 & w2 & -> & Hne1 & Hd1 & Hw1 & Hw2 & Hne2 & Hd2).
    by apply process_closed.
  - intros out part g1 H.
    apply match_open_end_sound in H as (w1 & w2 & -> & Hne1 & Hd1 & Hw1 & Hw2).
    by apply process_open_end.
  - intros out part g1 H.
    apply match_open_start_sound in H
      as (w1 & w2 & -> & Hw1 & Hw2 & Hne1 & Hd1).
    by apply process_open_start.
  - intros out part Hc He Hs.
    unfold process_part, push_single. rewrite Hc, He, Hs.
    cbn [matched orb]. by destruct (parseInt part).
  - intros. by apply parseRanges_closed_token.
  - intros a b Ha Hb Hout. rewrite parseRanges_closed_token by done.
    apply pages_empty. unfold lo, hi. lia.
  - intros a Ha. rewrite parseRanges_open_end_token by done.
    unfold lo, hi. f_equal. lia.
  - intros a Ha. rewrite parseRanges_open_end_token by lia.
    unfold lo, hi. rewrite <- (pages_one maxPages). f_equal; lia.
  - intros b Hb. rewrite parseRanges_open_start_token by done.
    unfold lo, hi. f_equal. lia.
  - intros. by apply parseRanges_decimal.
Qed.

Lemma C5_clamp_ranges_drop_singles_witness :
  process_part 5 [2] (str "3 - 12") = [2] ++ pages 3 5
  /\ process_part 5 [2] (str "7 -") = [2] ++ pages 5 5
  /\ process_part 5 [2] (str "- 0") = [2] ++ pages 1 1
  /\ process_part 5 [2] (str "9x") = [2]
  /\ parseRanges (str "3-12") 5 = pages 3 5
  /\ parseRanges (str "8-6") 5 = []
  /\ parseRanges (str "2-") 5 = pages 2 5
  /\ parseRanges (str "7-") 5 = [5]
  /\ parseRanges (str "-9") 5 = pages 1 5
  /\ parseRanges (str "12") 5 = [].
Proof.
  assert (0 <= 5 < 2 ^ 53) as HN by (split; [lia|reflexivity]).
  destruct (C5_clamp_ranges_drop_singles 5 HN)
    as (_ & Hc & He & Hs & Hn & Hct & Hout & Het & Hbeyond & Hst & Hd).
  split; [|split; [|split; [|split; [|split; [|split; [|split;
    [|split; [|split]]]]]]]].
  - apply (Hc [2] (str "3 - 12") (str "3") (str "12")). reflexivity.
  - apply (He [2] (str "7 -") (str "7")). reflexivity.
  - apply (Hs [2] (str "- 0") (str "0")). reflexivity.
  - apply (Hn [2] (str "9x")); reflexivity.
  - apply (Hct 3 12); lia.
  - apply (Hout 8 6); lia.
  - apply (Het 2); lia.
  - apply (Hbeyond 7); lia.
  - apply (Hst 9); lia.
  - apply (Hd 12); lia.
Defined.

(** C6. Range symmetry: for all non-negative integers [a] and [b] and
    every upper bound that is not negative, ["a-b"] and ["b-a"] give the
    same sequence. *)
Theorem C6_range_symmetry a b maxPages :
  0 <= a -> 0 <= b -> 0 <= maxPages ->
  parseRanges (closed_token a b) maxPages
  = parseRanges (closed_token b a) maxPages.
Proof.
  intros Ha Hb _. rewrite !parseRanges_closed_token by done.
  unfold lo, hi. by rewrite (Z.min_comm a b), (Z.max_comm a b).
Qed.

Lemma C6_range_symmetry_witness :
  parseRanges (str "2-12") 9 = parseRanges (str "12-2") 9.
Proof. apply (C6_range_symmetry 2 12 9); lia. Defined.

(** C7. Open ranges: for [1 <= k <= N], ["k-"] gives what ["k-N"] gives
    (the missing end is the upper bound) and ["-k"] gives what ["1-k"]
    gives (the missing start is 1). *)
Theorem C7_open_range_equivalence k maxPages :
  1 <= k <= maxPages ->
  parseRanges (open_end_token k) maxPages
  = parseRanges (closed_token k maxPages) maxPages
  /\ parseRanges (open_start_token k) maxPages
     = parseRanges (closed_token 1 k) maxPages.
Proof.
  intros Hk. split.
  - by rewrite parseRanges_open_end_token, parseRanges_closed_token by lia.
  - by rewrite parseRanges_open_start_token, parseRanges_closed_token by lia.
Qed.

Lemma C7_open_range_equivalence_witness :
  parseRanges (str "7-") 10 = parseRanges (str "7-10") 10
  /\ parseRanges (str "-7") 10 = parseRanges (str "1-7") 10.
Proof. apply (C7_open_range_equivalence 7 10). lia. Defined.

(** C8. De-duplication in first-occurrence order.  The result has no
    repeated page; it is the first-occurrence de-duplication of the working
    sequence (the pages in the order the tokens produced them): an entry of
    the working sequence stays exactly when its value has not occurred
    before it, and the entries that stay keep their order; de-duplicating
    the result again changes nothing. *)
Theorem C8_first_occurrence_dedup s maxPages :
  NoDup (parseRanges s maxPages)
  /\ parseRanges s maxPages = first_occurrences (working (trim s) maxPages)
  /\ sublist (parseRanges s maxPages) (working (trim s) maxPages)
  /\ filter_unseen ∅ (parseRanges s maxPages) = parseRanges s maxPages
  /\ first_occurrences (parseRanges s maxPages) = parseRanges s maxPages.
Proof.
  rewrite parseRanges_working. repeat split.
  - apply NoDup_filter_unseen.
  - apply filter_unseen_first.
  - apply filter_unseen_sublist.
  - apply filter_unseen_idempotent.
  - rewrite <- filter_unseen_first. apply filter_unseen_idempotent.
Qed.

(** C9. Determinism: no state outside the call influences the result, and
    the call changes no state outside itself.  On every store of objects,
    whatever earlier calls or other code have left in it, the call returns
    a new array whose elements are those of [parseRanges] for the same two
    arguments, and it leaves every object that existed before as it was:
    [out] and [seen], the only objects it mutates, are created by the call
    itself.  Hence two calls with the same specification and the same
    upper bound return the same sequence on any two stores, and also when
    the second call runs on the store the first has left; the two results
    are then different objects, and the second call does not touch the
    first result. *)
Theorem C9_result_independent_of_store :
  (forall str maxPages h,
      let '(r, h') := Heap.parseRanges str maxPages h in
      h' !! r = Some (Heap.Arr (parseRanges str maxPages))
      /\ (length h <= r)%nat
      /\ take (length h) h' = h)
  /\ (forall str maxPages h1 h2,
         let '(r1, h1') := Heap.parseRanges str maxPages h1 in
         let '(r2, h2') := Heap.parseRanges str maxPages h2 in
         Heap.elements r1 h1' = Heap.elements r2 h2')
  /\ (forall str maxPages h,
         let '(r1, h1) := Heap.parseRanges str maxPages h in
         let '(r2, h2) := Heap.parseRanges str maxPages h1 in
         r1 <> r2
         /\ Heap.elements r1 h2 = Heap.elements r1 h1
         /\ Heap.elements r2 h2 = Heap.elements r1 h1).
Proof.
  assert (forall str maxPages h,
    let '(r, h') := Heap.parseRanges str maxPages h in
    h' !! r = Some (Heap.Arr (parseRanges str maxPages))
    /\ (length h <= r)%nat
    /\ take (length h) h' = h) as Hcall.
  { intros str maxPages h.
    destruct (Heap_parseRanges str maxPages h) as [[-> ->]|[seen ->]].
    - split; [by apply list_lookup_middle|].
      split; [done|]. by rewrite take_app_length.
    - split.
      + change (h ++ [?a; ?b; ?c]) with (h ++ [a; b] ++ c :: []).
        rewrite app_assoc. apply list_lookup_middle.
        rewrite length_app. cbn [length]. lia.
      + split; [lia|]. by rewrite take_app_length. }
  assert (forall l (h h' : list Heap.object) e,
    h' !! l = Some (Heap.Arr e) -> Heap.elements l h' = e) as Helems.
  { intros l h h' e H. unfold Heap.elements. by rewrite H. }
  split; [done|]. split.
  - intros str maxPages h1 h2.
    pose proof (Hcall str maxPages h1) as H1.
    pose proof (Hcall str maxPages h2) as H2.
    destruct (Heap.parseRanges str maxPages h1) as [r1 h1'].
    destruct (Heap.parseRanges str maxPages h2) as [r2 h2'].
    destruct H1 as (H1 & _), H2 as (H2 & _).
    by rewrite (Helems r1 h1 h1' _ H1), (Helems r2 h2 h2' _ H2).
  - intros str maxPages h.
    pose proof (Hcall str maxPages h) as H1.
    destruct (Heap.parseRanges str maxPages h) as [r1 h1].
    pose proof (Hcall str maxPages h1) as H2.
    destruct (Heap.parseRanges str maxPages h1) as [r2 h2].
    destruct H1 as (H1 & Hfresh1 & _), H2 as (H2 & Hfresh2 & Hframe).
    pose proof (lookup_lt_Some _ _ _ H1) as Hlt.
    assert (h2 !! r1 = Some (Heap.Arr (parseRanges str maxPages))) as H1'.
    { rewrite <- (lookup_take_lt h2 (length h1) r1) by done.
      by rewrite Hframe. }
    split; [lia|].
    by rewrite (Helems r1 h h2 _ H1'), (Helems r1 h h1 _ H1),
      (Helems r2 h h2 _ H2).
Qed.

(** C10, as stated, fails: on the open-ended range ["7-"] and on the
    open-start range ["-3"] the two definitions return different
    sequences. *)
Lemma C10_copies_differ_on_open_ranges :
  parseRanges (str "7-") 10 <> App.parseRanges (str "7-") 10
  /\ parseRanges (str "-3") 10 <> App.parseRanges (str "-3") 10.
Proof. split; discriminate. Qed.

(** C10, amended.  The two definitions return the same sequence on every
    specification none of whose tokens matches the open-ended or the
    open-start pattern, for every upper bound. *)
Theorem C10_copies_agree_without_open_ranges s maxPages :
  forallb (fun part => negb (open_range part)) (parts (trim s)) = true ->
  parseRanges s maxPages = App.parseRanges s maxPages.
Proof.
  intros H. unfold parseRanges, App.parseRanges.
  destruct (negb (truthy (trim s))); [done|]. f_equal.
  unfold working, App.working. generalize (@nil Z).
  induction (parts (trim s)) as [|part ps IH]; intros out; [done|].
  cbn [forallb fold_left] in *. apply andb_prop in H as [Hp Hps].
  rewrite IH by done. f_equal.
  apply negb_true_iff, orb_false_iff in Hp as [He Hs].
  unfold process_part, App.process_part.
  destruct (match_closed part) as [[g1 g2]|]; [done|].
  destruct (match_open_end part); [done|].
  by destruct (match_open_start part).
Qed.

Lemma C10_copies_agree_witness :
  parseRanges (str "5-2, 9,x,4") 7 = App.parseRanges (str "5-2, 9,x,4") 7.
Proof.
  apply (C10_copies_agree_without_open_ranges (str "5-2, 9,x,4") 7).
  reflexivity.
Defined.

(** * Lists *)

Lemma sublist_filter_bool {A} (f : A -> bool) l : sublist (List.filter f l) l.
Proof.
  induction l as [|x l IH]; [constructor|]. cbn [List.filter].
  destruct (f x); [by apply sublist_skip|by apply sublist_cons].
Qed.

Lemma forallb_filter_id {A} (f : A -> bool) l :
  forallb f l = true -> List.filter f l = l.
Proof.
  induction l as [|x l IH]; [done|]. cbn [forallb List.filter].
  intros [-> Hl]%andb_prop. by rewrite IH.
Qed.

(** * Further properties of parseRanges *)

(** ** Trimming *)

Lemma dropWhile_app_all {A} (p : A -> bool) w l :
  forallb p w = true -> dropWhile p (w ++ l) = dropWhile p l.
Proof.
  induction w as [|x w IH]; [done|]. cbn [forallb app dropWhile].
  intros [-> Hw]%andb_prop. auto.
Qed.

(** [trim s] is the only core of [s] between two runs of white space that
    neither starts nor ends with white space. *)
Lemma trim_unique w1 t w2 :
  forallb is_ws w1 = true -> forallb is_ws w2 = true ->
  starts is_ws t = false -> starts is_ws (rev t) = false ->
  trim (w1 ++ t ++ w2) = t.
Proof.
  intros Hw1 Hw2 Ht Hrt. unfold trim. rewrite dropWhile_app_all by done.
  destruct t as [|x t].
  - cbn [app]. rewrite (dropWhile_all is_ws w2) by done. done.
  - rewrite (dropWhile_none is_ws ((x :: t) ++ w2)) by done.
    rewrite rev_app_distr, dropWhile_app_all by (by rewrite forallb_rev).
    rewrite (dropWhile_none is_ws) by done. apply rev_involutive.
Qed.

Lemma trim_decompose s :
  exists w1 w2,
    s = w1 ++ trim s ++ w2
    /\ forallb is_ws w1 = true /\ forallb is_ws w2 = true
    /\ starts is_ws (trim s) = false /\ starts is_ws (rev (trim s)) = false.
Proof.
  set (t := dropWhile is_ws s).
  exists (takeWhile is_ws s), (rev (takeWhile is_ws (rev t))).
  assert (trim s ++ rev (takeWhile is_ws (rev t)) = t) as Ht.
  { unfold trim. fold t. rewrite <- rev_app_distr, takeWhile_dropWhile.
    apply rev_involutive. }
  repeat split.
  - rewrite Ht. symmetry. apply takeWhile_dropWhile.
  - apply takeWhile_forallb.
  - rewrite forallb_rev. apply takeWhile_forallb.
  - destruct (trim s) as [|x u] eqn:E; [done|].
    assert (starts is_ws t = false) as Hst by apply starts_dropWhile.
    rewrite <- Ht in Hst. done.
  - unfold trim. rewrite rev_involutive. apply starts_dropWhile.
Qed.

Lemma trim_ws_l w s : forallb is_ws w = true -> trim (w ++ s) = trim s.
Proof.
  intros Hw. destruct (trim_decompose s) as (w1 & w2 & Hs & H1 & H2 & H3 & H4).
  rewrite Hs at 1. rewrite app_assoc. apply trim_unique; try done.
  rewrite forallb_app. by rewrite Hw, H1.
Qed.

Lemma trim_ws_r s w : forallb is_ws w = true -> trim (s ++ w) = trim s.
Proof.
  intros Hw. destruct (trim_decompose s) as (w1 & w2 & Hs & H1 & H2 & H3 & H4).
  rewrite Hs at 1. rewrite <- !app_assoc. apply trim_unique; try done.
  rewrite forallb_app. by rewrite Hw, H2.
Qed.

Lemma trim_idempotent s : trim (trim s) = trim s.
Proof.
  destruct (trim_decompose s) as (_ & _ & _ & _ & _ & H3 & H4).
  by apply trim_id.
Qed.

(** ** Splitting *)

Lemma split_comma_nonempty s : split_comma s <> [].
Proof.
  destruct s as [|c r]; [done|]. cbn [split_comma].
  destruct (c =? comma)%N; [done|]. by destruct (split_comma r).
Qed.

Lemma split_comma_app s1 s2 :
  split_comma (s1 ++ comma :: s2) = split_comma s1 ++ split_comma s2.
Proof.
  induction s1 as [|c r IH]; [done|]. cbn [app split_comma].
  destruct (c =? comma)%N; rewrite IH; [done|].
  pose proof (split_comma_nonempty r). by destruct (split_comma r).
Qed.

Lemma no_comma_ws w : forallb is_ws w = true -> no_comma w = true.
Proof.
  unfold no_comma. rewrite !forallb_forall. intros H c Hc.
  apply negb_true_iff, ws_not_comma. auto.
Qed.

Lemma split_comma_prefix w s :
  no_comma w = true ->
  exists seg segs,
    split_comma s = seg :: segs /\ split_comma (w ++ s) = (w ++ seg) :: segs.
Proof.
  intros Hw. induction w as [|c w IH].
  - pose proof (split_comma_nonempty s).
    destruct (split_comma s) as [|seg segs] eqn:E; [done|]. by exists seg, segs.
  - cbn [no_comma forallb] in Hw. apply andb_prop in Hw as [Hc Hw].
    destruct (IH Hw) as (seg & segs & Hs & Hws). exists seg, segs.
    split; [done|]. cbn [app split_comma].
    apply negb_true_iff in Hc. by rewrite Hc, Hws.
Qed.

Lemma split_comma_suffix s w :
  no_comma w = true ->
  exists init last,
    split_comma s = init ++ [last] /\ split_comma (s ++ w) = init ++ [last ++ w].
Proof.
  intros Hw. induction s as [|c r IH].
  - exists [], []. split; [done|]. cbn [app]. by apply split_comma_no_comma.
  - destruct IH as (init & last & Hr & Hrw). cbn [app split_comma].
    destruct (c =? comma)%N.
    + exists ([] :: init), last. by rewrite Hr, Hrw.
    + rewrite Hr, Hrw. destruct init as [|seg init]; cbn [app].
      * by exists [], (c :: last).
      * by exists ((c :: seg) :: init), last.
Qed.

Lemma parts_ws_l w s : forallb is_ws w = true -> parts (w ++ s) = parts s.
Proof.
  intros Hw. unfold parts.
  destruct (split_comma_prefix w s) as (seg & segs & -> & ->);
    [by apply no_comma_ws|].
  cbn [List.map]. by rewrite trim_ws_l.
Qed.

Lemma parts_ws_r s w : forallb is_ws w = true -> parts (s ++ w) = parts s.
Proof.
  intros Hw. unfold parts.
  destruct (split_comma_suffix s w) as (init & last & -> & ->);
    [by apply no_comma_ws|].
  rewrite !List.map_app. cbn [List.map]. by rewrite trim_ws_r.
Qed.

(** The trim of the whole specification adds nothing to the trims of its
    segments. *)
Lemma parts_trim s : parts (trim s) = parts s.
Proof.
  destruct (trim_decompose s) as (w1 & w2 & Hs & H1 & H2 & _).
  rewrite Hs at 2. by rewrite parts_ws_l, parts_ws_r.
Qed.

Lemma parts_app s1 s2 : parts (s1 ++ comma :: s2) = parts s1 ++ parts s2.
Proof.
  unfold parts. by rewrite split_comma_app, List.map_app, List.filter_app.
Qed.

(** ** Tokens are processed independently *)

Lemma push_range_app maxPages a b out :
  push_range maxPages a b out = out ++ push_range maxPages a b [].
Proof.
  destruct a as [a|], b as [b|]; try (by rewrite app_nil_r).
  by rewrite !push_range_pages.
Qed.

Lemma push_single_app maxPages part out :
  push_single maxPages part out = out ++ push_single maxPages part [].
Proof.
  unfold push_single. destruct (parseInt part) as [n|]; [|by rewrite app_nil_r].
  destruct ((1 <=? n) && (n <=? maxPages)); [done|by rewrite app_nil_r].
Qed.

Lemma process_part_app maxPages out part :
  process_part maxPages out part = out ++ process_part maxPages [] part.
Proof.
  unfold process_part.
  destruct (matched _ || matched _ || matched _).
  - destruct (match_closed part) as [[? ?]|], (match_open_end part),
      (match_open_start part); apply push_range_app.
  - apply push_single_app.
Qed.

Lemma App_process_part_app maxPages out part :
  App.process_part maxPages out part = out ++ App.process_part maxPages [] part.
Proof.
  unfold App.process_part.
  destruct (match_closed part) as [[? ?]|];
    [apply push_range_app|apply push_single_app].
Qed.

Section IndependentTurns.
Variable turn : list Z -> list N -> list Z.
Hypothesis turn_app : forall out part, turn out part = out ++ turn [] part.

Lemma fold_turns ps out :
  fold_left turn ps out = out ++ flat_map (turn []) ps.
Proof.
  revert out. induction ps as [|part ps IH]; intros out; cbn [fold_left flat_map].
  - by rewrite app_nil_r.
  - rewrite IH, (turn_app out part). by rewrite <- app_assoc.
Qed.
End IndependentTurns.

Lemma working_flat_map s maxPages :
  working s maxPages = flat_map (process_part maxPages []) (parts s).
Proof.
  unfold working. rewrite fold_turns; [done|]. intros. apply process_part_app.
Qed.

Lemma App_working_flat_map s maxPages :
  App.working s maxPages = flat_map (App.process_part maxPages []) (parts s).
Proof.
  unfold App.working. rewrite fold_turns; [done|].
  intros. apply App_process_part_app.
Qed.

Lemma parseRanges_flat_map s maxPages :
  parseRanges s maxPages
  = filter_unseen ∅ (flat_map (process_part maxPages []) (parts s)).
Proof. by rewrite parseRanges_working, working_flat_map, parts_trim. Qed.

Lemma App_parseRanges_flat_map s maxPages :
  App.parseRanges s maxPages
  = filter_unseen ∅ (flat_map (App.process_part maxPages []) (parts s)).
Proof.
  unfold App.parseRanges. rewrite App_working_flat_map, parts_trim.
  destruct (trim s) eqn:E; [|done].
  rewrite <- parts_trim, E. done.
Qed.

(** ** More on the de-duplicating filter *)

Lemma filter_unseen_twice (seen seen' : gset Z) l :
  filter_unseen seen (filter_unseen seen' l) = filter_unseen (seen ∪ seen') l.
Proof.
  revert seen seen'. induction l as [|p l IH]; intros seen seen'; [done|].
  cbn [filter_unseen].
  destruct (decide (p ∈ seen')) as [Hp'|Hp'].
  - rewrite !bool_decide_eq_true_2 by set_solver. apply IH.
  - rewrite (bool_decide_eq_false_2 (p ∈ seen')) by done. cbn [filter_unseen].
    destruct (decide (p ∈ seen)) as [Hp|Hp].
    + rewrite !bool_decide_eq_true_2 by set_solver. rewrite IH.
      f_equal. set_solver.
    + rewrite !bool_decide_eq_false_2 by set_solver. rewrite IH.
      do 2 f_equal. set_solver.
Qed.

Lemma filter_unseen_app (seen : gset Z) l1 l2 :
  filter_unseen seen (l1 ++ l2)
  = filter_unseen seen l1 ++ filter_unseen (seen ∪ list_to_set l1) l2.
Proof.
  revert seen. induction l1 as [|p l IH]; intros seen; cbn [app filter_unseen].
  - f_equal. set_solver.
  - case_bool_decide as Hp; rewrite IH.
    + do 2 f_equal. set_solver.
    + cbn [app]. do 3 f_equal. set_solver.
Qed.

Lemma list_to_set_filter_unseen l :
  (list_to_set (filter_unseen ∅ l) : gset Z) = list_to_set l.
Proof.
  apply set_eq. intros v.
  rewrite !elem_of_list_to_set, elem_of_filter_unseen. set_solver.
Qed.

Lemma filter_unseen_app_dedup l1 l2 :
  filter_unseen ∅ (l1 ++ l2)
  = filter_unseen ∅ (filter_unseen ∅ l1 ++ filter_unseen ∅ l2).
Proof.
  rewrite !filter_unseen_app, filter_unseen_idempotent.
  rewrite list_to_set_filter_unseen, filter_unseen_twice.
  do 2 f_equal. set_solver.
Qed.

(** X1. A comma joins two specifications: the result for [s1,s2] is the
    result for [s1] followed by the pages of the result for [s2] that are
    not already there. *)
Theorem parseRanges_comma s1 s2 maxPages :
  parseRanges (s1 ++ comma :: s2) maxPages
  = filter_unseen ∅ (parseRanges s1 maxPages ++ parseRanges s2 maxPages)
  /\ parseRanges (s1 ++ comma :: s2) maxPages
     = parseRanges s1 maxPages
       ++ filter_unseen (list_to_set (parseRanges s1 maxPages))
            (parseRanges s2 maxPages).
Proof.
  assert (parseRanges (s1 ++ comma :: s2) maxPages
          = filter_unseen ∅ (parseRanges s1 maxPages ++ parseRanges s2 maxPages))
    as H.
  { rewrite !parseRanges_flat_map, parts_app, flat_map_app.
    apply filter_unseen_app_dedup. }
  split; [done|]. rewrite H, filter_unseen_app.
  rewrite !parseRanges_flat_map, filter_unseen_idempotent.
  do 2 f_equal. set_solver.
Qed.

(** X2. White space around the whole specification is ignored. *)
Theorem parseRanges_outer_space w1 s w2 maxPages :
  forallb is_ws w1 = true -> forallb is_ws w2 = true ->
  parseRanges (w1 ++ s ++ w2) maxPages = parseRanges s maxPages.
Proof.
  intros H1 H2. by rewrite !parseRanges_flat_map, parts_ws_l, parts_ws_r.
Qed.

Lemma parseRanges_outer_space_witness :
  parseRanges (str "  " ++ str "2-3,9" ++ str " ") 5
  = parseRanges (str "2-3,9") 5.
Proof.
  apply (parseRanges_outer_space (str "  ") (str "2-3,9") (str " ") 5);
    reflexivity.
Defined.

(** X3. A page is in the result exactly when one of the tokens, taken on
    its own, produces it: neither the order of the tokens nor their
    repetition changes which pages are selected. *)
Theorem parseRanges_page_iff_token s maxPages v :
  v ∈ parseRanges s maxPages
  <-> exists part, part ∈ parts s /\ v ∈ process_part maxPages [] part.
Proof.
  rewrite parseRanges_flat_map, elem_of_filter_unseen.
  rewrite list_elem_of_In, in_flat_map.
  setoid_rewrite <- list_elem_of_In. set_solver.
Qed.

(** ** The copy in app.js against the module *)

Lemma in_bounds_interval maxPages n :
  in_bounds maxPages n = true ->
  n ∈ pages (lo n maxPages) (hi maxPages n maxPages).
Proof.
  intros H%in_bounds_spec. apply elem_of_pages. unfold lo, hi. lia.
Qed.

(** On an open-ended token the copy reads the start of the range as a bare
    value. *)
Lemma App_open_end maxPages part g1 :
  match_open_end part = Some g1 ->
  App.process_part maxPages [] part
  = if in_bounds maxPages (digits_value g1) then [digits_value g1] else [].
Proof.
  intros (w1 & w2 & -> & Hne & Hg & Hw1 & Hw2)%match_open_end_sound.
  unfold App.process_part. rewrite match_closed_open_end by done.
  unfold push_single.
  rewrite parseInt_digits by (done || by apply starts_digit_false_ws).
  done.
Qed.

(** On an open-start token the copy finds a negative number, or none, and
    selects nothing. *)
Lemma App_open_start maxPages part g1 :
  match_open_start part = Some g1 ->
  App.process_part maxPages [] part = [].
Proof.
  intros (w1 & w2 & -> & Hw1 & Hw2 & Hne & Hg)%match_open_start_sound.
  unfold App.process_part. rewrite match_closed_open_start by done.
  unfold push_single, parseInt.
  rewrite (dropWhile_app is_ws) by done. cbn [N.eqb hyphen Pos.eqb].
  destruct w2 as [|c w2].
  - cbn [app]. rewrite (takeWhile_all is_digit) by done.
    destruct g1 as [|d g] eqn:E; [done|]. rewrite <- E in *.
    pose proof (digits_value_nonneg g1 Hg).
    destruct (Z.leb_spec 1 (-1 * digits_value g1)); [lia|done].
  - cbn [forallb] in Hw2. apply andb_prop in Hw2 as [Hc _].
    cbn [app takeWhile]. by rewrite ws_not_digit.
Qed.

Lemma App_part_subset maxPages part v :
  v ∈ App.process_part maxPages [] part -> v ∈ process_part maxPages [] part.
Proof.
  destruct (match_closed part) as [[g1 g2]|] eqn:Hc.
  { unfold App.process_part, process_part. by rewrite Hc. }
  destruct (match_open_end part) as [g1|] eqn:He.
  { rewrite (App_open_end _ _ _ He).
    destruct (match_open_end_sound _ _ He) as (w1 & w2 & -> & ? & ? & ? & ?).
    rewrite process_open_end by done.
    destruct (in_bounds maxPages (digits_value g1)) eqn:Hb; [|by inversion 1].
    intros ->%list_elem_of_singleton. by apply in_bounds_interval. }
  destruct (match_open_start part) as [g1|] eqn:Hs.
  { rewrite (App_open_start _ _ _ Hs). by inversion 1. }
  unfold App.process_part, process_part. by rewrite Hc, He, Hs.
Qed.

(** X4. The copy in app.js never selects a page that the module does not
    select for the same specification and page count. *)
Theorem App_pages_in_parseRanges s maxPages v :
  v ∈ App.parseRanges s maxPages -> v ∈ parseRanges s maxPages.
Proof.
  rewrite parseRanges_flat_map, App_parseRanges_flat_map.
  rewrite !elem_of_filter_unseen, !list_elem_of_In, !in_flat_map.
  intros [(part & Hin & Hv) Hnot]. split; [|done].
  exists part. split; [done|].
  apply list_elem_of_In, App_part_subset. by apply list_elem_of_In.
Qed.

Lemma App_pages_in_parseRanges_witness : 7 ∈ parseRanges (str "2,7-") 10.
Proof.
  apply (App_pages_in_parseRanges (str "2,7-") 10 7).
  vm_compute. apply list_elem_of_In. simpl. auto.
Defined.

Lemma App_process_part_valid maxPages part :
  valid_pages maxPages (App.process_part maxPages [] part).
Proof.
  unfold App.process_part.
  destruct (match_closed part) as [[g1 g2]|].
  - destruct (push_range_appends maxPages (parseInt g1) (parseInt g2) [])
      as (added & -> & H). done.
  - destruct (push_single_appends maxPages part []) as (added & -> & H). done.
Qed.

(** X5. The copy in app.js keeps the invariants of the module: its result
    has no repeated page and every page of it lies between 1 and
    [maxPages]. *)
Theorem App_parseRanges_invariants s maxPages :
  NoDup (App.parseRanges s maxPages)
  /\ Forall (fun v => 1 <= v <= maxPages) (App.parseRanges s maxPages).
Proof.
  rewrite App_parseRanges_flat_map. split; [apply NoDup_filter_unseen|].
  apply filter_unseen_valid. unfold valid_pages.
  apply Forall_flat_map, Forall_forall. intros part _.
  apply App_process_part_valid.
Qed.

(** ** Open ranges at the edges *)

(** X26. An open-ended range gives the pages from its start to the last
    page; but when its start lies after the last page the swap of the
    bounds makes it select the last page (a closed range there selects
    nothing).  An open-start range [-k] gives the pages from 1 to [k], cut
    at the last page; [-0] selects page 1. *)
Theorem open_range_edges k maxPages :
  0 <= k -> 1 <= maxPages ->
  parseRanges (open_end_token k) maxPages
  = (if k <=? maxPages then pages (Z.max 1 k) maxPages else [maxPages])
  /\ parseRanges (open_start_token k) maxPages
     = pages 1 (Z.min maxPages (Z.max 1 k))
  /\ (maxPages < k ->
      parseRanges (closed_token k (k + 1)) maxPages = []).
Proof.
  intros Hk HN. split; [|split].
  - rewrite parseRanges_open_end_token by done. unfold lo, hi.
    destruct (Z.leb_spec k maxPages).
    + f_equal; lia.
    + rewrite <- (pages_one maxPages). f_equal; lia.
  - rewrite parseRanges_open_start_token by done. unfold lo, hi.
    f_equal; lia.
  - intros Hgt. rewrite parseRanges_closed_token by lia.
    apply pages_empty. unfold lo, hi. lia.
Qed.

Lemma open_range_edges_witness :
  parseRanges (str "7-") 5 = [5]
  /\ parseRanges (str "-7") 5 = pages 1 (Z.min 5 (Z.max 1 7))
  /\ (5 < 7 -> parseRanges (str "7-8") 5 = []).
Proof. apply (open_range_edges 7 5); lia. Defined.

(** * Properties of src/app.js *)

(** ** escapeHtml *)

Lemma escape_char_case ch : escape_case ch (escape_char ch).
Proof.
  unfold escape_char, entity.
  destruct (N.eqb_spec ch 38); [by apply escape_amp|].
  destruct (N.eqb_spec ch 60); [by apply escape_lt|].
  destruct (N.eqb_spec ch 62); [by apply escape_gt|].
  destruct (N.eqb_spec ch 34); [by apply escape_quot|].
  destruct (N.eqb_spec ch 39); [by apply escape_apos|].
  by apply escape_other.
Qed.

Lemma special_spec ch :
  special ch = true
  <-> ch = 38%N \/ ch = 60%N \/ ch = 62%N \/ ch = 34%N \/ ch = 39%N.
Proof.
  unfold special, entity.
  repeat match goal with
         | |- context [(ch =? ?k)%N] => destruct (N.eqb_spec ch k)
         end; cbn [matched]; split; intros H; try done; try tauto.
Qed.

Lemma escape_char_plain ch : special ch = false -> escape_char ch = [ch].
Proof. unfold special, escape_char. by destruct (entity ch). Qed.

Lemma escape_char_length ch :
  (if special ch then 4 <= length (escape_char ch)
   else length (escape_char ch) = 1)%nat.
Proof.
  destruct (special ch) eqn:E.
  - apply special_spec in E.
    destruct E as [->|[->|[->|[->| ->]]]]; cbn; lia.
  - by rewrite escape_char_plain.
Qed.

Lemma escapeHtml_cons ch s :
  escapeHtml (ch :: s) = escape_char ch ++ escapeHtml s.
Proof. done. Qed.

Lemma escapeHtml_length s : (length s <= length (escapeHtml s))%nat.
Proof.
  induction s as [|ch s IH]; [done|].
  rewrite escapeHtml_cons, length_app. cbn [length].
  pose proof (escape_char_length ch). destruct (special ch); lia.
Qed.

(** X6. The text [escapeHtml] returns holds no [<], [>], double quote or
    apostrophe, whatever the input: it cannot open a tag or close an
    attribute. *)
Theorem escapeHtml_no_markup s :
  Forall (fun c => c <> 60 /\ c <> 62 /\ c <> 34 /\ c <> 39)%N (escapeHtml s).
Proof.
  unfold escapeHtml. apply Forall_flat_map, Forall_forall. intros ch _.
  destruct (escape_char_case ch); repeat constructor; done.
Qed.

(** X7. Escaping loses nothing: two different texts never escape to the
    same text. *)
Theorem escapeHtml_injective s1 s2 :
  escapeHtml s1 = escapeHtml s2 -> s1 = s2.
Proof.
  revert s2. induction s1 as [|c1 s1 IH]; intros [|c2 s2].
  - done.
  - rewrite escapeHtml_cons. destruct (escape_char_case c2); discriminate.
  - rewrite escapeHtml_cons. destruct (escape_char_case c1); discriminate.
  - rewrite !escapeHtml_cons.
    destruct (escape_char_case c1), (escape_char_case c2);
      cbn [app]; intros Heq; simplify_eq; try congruence;
      f_equal; by apply IH.
Qed.

Lemma escapeHtml_injective_witness : str "a<b" = str "a<b".
Proof. apply (escapeHtml_injective (str "a<b") (str "a<b")). reflexivity. Defined.

Lemma escapeHtml_plain_inv s :
  forallb (fun ch => negb (special ch)) (escapeHtml s) = true ->
  forallb (fun ch => negb (special ch)) s = true.
Proof.
  induction s as [|ch s IH]; [done|].
  rewrite escapeHtml_cons, forallb_app. cbn [forallb].
  intros [Hch Hs]%andb_prop. rewrite (IH Hs), andb_true_r.
  destruct (escape_char_case ch) as [->| ->| ->| ->| ->|? ? ? ? ?];
    try discriminate Hch.
  cbn [forallb] in Hch. by rewrite andb_true_r in Hch.
Qed.

(** X8. Escaping leaves a text as it is exactly when the text holds none
    of the five characters; and escaping twice differs from escaping once
    exactly when the text holds one of them: a text must be escaped once,
    not twice. *)
Theorem escapeHtml_fixed_points s :
  (escapeHtml s = s <-> forallb (fun ch => negb (special ch)) s = true)
  /\ (escapeHtml (escapeHtml s) = escapeHtml s
      <-> forallb (fun ch => negb (special ch)) s = true).
Proof.
  assert (forall t, escapeHtml t = t
                    <-> forallb (fun ch => negb (special ch)) t = true) as Hfix.
  { induction t as [|ch t IH]; [done|].
    rewrite escapeHtml_cons. cbn [forallb]. rewrite andb_true_iff, <- IH.
    pose proof (escape_char_length ch) as Hlen.
    pose proof (escapeHtml_length t) as Hle.
    destruct (special ch) eqn:E; cbn [negb].
    - split; [|intros [? _]; done].
      intros H%(f_equal length). rewrite length_app in H. cbn in H. lia.
    - rewrite escape_char_plain by done. cbn [app].
      split; [intros [=]; done|intros [_ ->]; done]. }
  split; [apply Hfix|].
  split.
  - intros H%Hfix. by apply escapeHtml_plain_inv.
  - intros H%Hfix. by rewrite !H.
Qed.

(** ** hashHue *)

Lemma hash_fold_mod s a :
  fold_left (fun h c => (h * 31 + Z.of_N c) mod 2 ^ 32) s (a mod 2 ^ 32)
  = fold_left (fun h c => h * 31 + Z.of_N c) s a mod 2 ^ 32.
Proof.
  revert a. induction s as [|c s IH]; intros a; [done|].
  cbn [fold_left]. rewrite <- IH. f_equal.
  rewrite Zplus_mod, Zmult_mod_idemp_l, <- Zplus_mod. done.
Qed.

(** X9. The hue is a number from 0 to 359, and cutting the hash to 32 bits
    at every step gives what cutting once at the end gives: the hue is the
    polynomial in 31 of the code units, reduced modulo 2^32 and then modulo
    360. *)
Theorem hashHue_closed_form s :
  hashHue s = (horner31 s mod 2 ^ 32) mod 360 /\ 0 <= hashHue s < 360.
Proof.
  split; [|apply Z.mod_pos_bound; lia].
  unfold hashHue, horner31. f_equal. apply (hash_fold_mod s 0).
Qed.

(** ** luhn *)

Lemma parseInt_single c :
  parseInt [c] = if is_digit c then Some (Z.of_N c - 48) else None.
Proof.
  unfold parseInt. cbn [dropWhile].
  destruct (is_ws c) eqn:Hws.
  { by rewrite ws_not_digit. }
  destruct (N.eqb_spec c hyphen) as [->|_]; [done|].
  destruct (N.eqb_spec c plus_sign) as [->|_]; [done|].
  cbn [takeWhile]. destruct (is_digit c); [|done].
  unfold digits_value. cbn [fold_left]. f_equal. lia.
Qed.

Lemma luhn_loop_NaN ds alt : luhn_loop ds None alt = None.
Proof. revert alt. induction ds as [|c ds IH]; intros alt; [done|]. apply IH. Qed.

Lemma luhn_loop_digits ds sum alt :
  forallb is_digit ds = true ->
  luhn_loop ds (Some sum) alt = Some (sum + luhn_sum ds alt).
Proof.
  revert sum alt. induction ds as [|c ds IH]; intros sum alt.
  - intros _. cbn. f_equal. lia.
  - cbn [forallb]. intros [Hc Hds]%andb_prop. cbn [luhn_loop luhn_sum].
    rewrite parseInt_single, Hc. cbn [option_map num_add].
    rewrite IH by done. f_equal. lia.
Qed.

Lemma luhn_loop_non_digit ds sum alt :
  forallb is_digit ds = false -> luhn_loop ds sum alt = None.
Proof.
  revert sum alt. induction ds as [|c ds IH]; intros sum alt; [done|].
  cbn [forallb luhn_loop]. rewrite parseInt_single.
  destruct (is_digit c); cbn [andb option_map].
  - intros H. destruct sum; cbn [num_add]; [by apply IH|apply luhn_loop_NaN].
  - intros _. destruct sum; apply luhn_loop_NaN.
Qed.

Lemma luhn_digit_range alt n : 0 <= n <= 9 -> 0 <= luhn_digit alt n <= 9.
Proof.
  intros Hn. unfold luhn_digit. destruct alt; [|done].
  destruct (Z.gtb_spec (n * 2) 9); lia.
Qed.

Lemma luhn_digit_injective alt n m :
  0 <= n <= 9 -> 0 <= m <= 9 -> luhn_digit alt n = luhn_digit alt m -> n = m.
Proof.
  intros Hn Hm. unfold luhn_digit. destruct alt; [|done].
  destruct (Z.gtb_spec (n * 2) 9), (Z.gtb_spec (m * 2) 9); lia.
Qed.

Lemma digit_value_range c : is_digit c = true -> 0 <= Z.of_N c - 48 <= 9.
Proof. intros H%is_digit_range. lia. Qed.

Lemma luhn_sum_nonneg ds alt :
  forallb is_digit ds = true -> 0 <= luhn_sum ds alt.
Proof.
  revert alt. induction ds as [|c ds IH]; intros alt; [done|].
  cbn [forallb luhn_sum]. intros [Hc Hds]%andb_prop.
  pose proof (luhn_digit_range alt _ (digit_value_range c Hc)).
  specialize (IH (negb alt) Hds). lia.
Qed.

Lemma luhn_sum_app l1 l2 alt :
  luhn_sum (l1 ++ l2) alt
  = luhn_sum l1 alt + luhn_sum l2 (xorb alt (Nat.odd (length l1))).
Proof.
  revert alt. induction l1 as [|c l1 IH]; intros alt.
  - cbn. by rewrite xorb_false_r.
  - cbn [app luhn_sum length]. rewrite IH, Nat.odd_succ, <- Nat.negb_odd.
    rewrite Z.add_assoc. do 2 f_equal.
    by destruct alt, (Nat.odd (length l1)).
Qed.

(** On a string of digits [luhn] tests the weighted sum of the digits. *)
Lemma luhn_digits s :
  forallb is_digit s = true ->
  luhn s = (luhn_sum (rev s) false mod 10 =? 0).
Proof.
  intros Hs. unfold luhn.
  rewrite luhn_loop_digits by (by rewrite forallb_rev).
  rewrite Z.add_0_l, Z.rem_mod_nonneg; [done| |lia].
  apply luhn_sum_nonneg. by rewrite forallb_rev.
Qed.

(** The sum of a string in which one position is singled out. *)
Lemma luhn_sum_at pre d post :
  luhn_sum (rev (pre ++ d :: post)) false
  = luhn_sum (rev post) false
    + luhn_digit (Nat.odd (length post)) (Z.of_N d - 48)
    + luhn_sum (rev pre) (negb (Nat.odd (length post))).
Proof.
  rewrite rev_app_distr. cbn [rev]. rewrite <- app_assoc. cbn [app].
  rewrite luhn_sum_app, length_rev. cbn [luhn_sum xorb]. lia.
Qed.

(** X10. [luhn] catches every single wrong digit: replacing one digit of a
    string of digits that passes by a different digit gives a string that
    fails. *)
Theorem luhn_detects_wrong_digit pre d d' post :
  forallb is_digit (pre ++ d :: post) = true ->
  is_digit d' = true -> d' <> d ->
  luhn (pre ++ d :: post) = true ->
  luhn (pre ++ d' :: post) = false.
Proof.
  intros Hs Hd' Hne.
  assert (forallb is_digit (pre ++ d' :: post) = true) as Hs'.
  { rewrite forallb_app in *. cbn [forallb] in *.
    apply andb_prop in Hs as [-> [_ ->]%andb_prop]. by rewrite Hd'. }
  assert (is_digit d = true) as Hd.
  { rewrite forallb_app in Hs. cbn [forallb] in Hs.
    by apply andb_prop in Hs as [_ [? _]%andb_prop]. }
  rewrite !luhn_digits, !luhn_sum_at by done.
  set (alt := Nat.odd (length post)).
  pose proof (luhn_digit_range alt _ (digit_value_range d Hd)) as Hr.
  pose proof (luhn_digit_range alt _ (digit_value_range d' Hd')) as Hr'.
  assert (luhn_digit alt (Z.of_N d - 48) <> luhn_digit alt (Z.of_N d' - 48))
    as Hdiff.
  { intros H%luhn_digit_injective; try (by apply digit_value_range). lia. }
  intros H%Z.eqb_eq. apply Z.eqb_neq. intros H'.
  Z.to_euclidean_division_equations. lia.
Qed.

Lemma luhn_detects_wrong_digit_witness : luhn (str "4142") = false.
Proof.
  apply (luhn_detects_wrong_digit (str "4") 50%N 49%N (str "42"));
    (reflexivity || discriminate).
Defined.

(** X11. Every string of digits has exactly one check digit: one digit
    that, written after it, makes [luhn] pass. *)
Theorem luhn_check_digit body :
  forallb is_digit body = true ->
  exists c,
    is_digit c = true /\ luhn (body ++ [c]) = true
    /\ forall c', is_digit c' = true -> luhn (body ++ [c']) = true -> c' = c.
Proof.
  intros Hb.
  assert (forall c, is_digit c = true ->
            luhn (body ++ [c])
            = ((Z.of_N c - 48 + luhn_sum (rev body) true) mod 10 =? 0)) as Hl.
  { intros c Hc. rewrite luhn_digits
      by (rewrite forallb_app; cbn [forallb]; by rewrite Hb, Hc).
    rewrite rev_app_distr. done. }
  pose proof (luhn_sum_nonneg (rev body) true) as Hpos.
  rewrite forallb_rev in Hpos. specialize (Hpos Hb).
  set (t := luhn_sum (rev body) true) in *.
  exists (Z.to_N (48 + (10 - t mod 10) mod 10)).
  assert (0 <= (10 - t mod 10) mod 10 <= 9) as Hrange
    by (Z.to_euclidean_division_equations; lia).
  assert (is_digit (Z.to_N (48 + (10 - t mod 10) mod 10)) = true) as Hc
    by (apply is_digit_range; lia).
  split; [done|]. split.
  - rewrite Hl by done. apply Z.eqb_eq. rewrite Z2N.id by lia.
    Z.to_euclidean_division_equations. lia.
  - intros c' Hc' Hok. rewrite Hl in Hok by done. apply Z.eqb_eq in Hok.
    apply is_digit_range in Hc'. apply N2Z.inj. rewrite Z2N.id by lia.
    Z.to_euclidean_division_equations. lia.
Qed.

Lemma luhn_check_digit_witness :
  exists c,
    is_digit c = true /\ luhn (str "7992739871" ++ [c]) = true
    /\ forall c', is_digit c' = true ->
                  luhn (str "7992739871" ++ [c']) = true -> c' = c.
Proof. apply (luhn_check_digit (str "7992739871")). reflexivity. Defined.

(** X12. A character that is not a digit makes the sum [NaN]: a string
    with such a character never passes, wherever the character stands. *)
Theorem luhn_rejects_non_digits s :
  forallb is_digit s = false -> luhn s = false.
Proof.
  intros H. unfold luhn.
  rewrite luhn_loop_non_digit; [done|]. by rewrite forallb_rev.
Qed.

Lemma luhn_rejects_non_digits_witness : luhn (str "4111 1111") = false.
Proof. apply (luhn_rejects_non_digits (str "4111 1111")). reflexivity. Defined.

Lemma luhn_sum_at2 pre a b post :
  luhn_sum (rev (pre ++ a :: b :: post)) false
  = luhn_sum (rev post) false
    + luhn_digit (Nat.odd (length post)) (Z.of_N b - 48)
    + luhn_digit (negb (Nat.odd (length post))) (Z.of_N a - 48)
    + luhn_sum (rev pre) (Nat.odd (length post)).
Proof.
  rewrite luhn_sum_at. pose proof (luhn_sum_at [] b post) as Hb.
  cbn [app] in Hb. rewrite Hb.
  cbn [length rev luhn_sum]. rewrite Nat.odd_succ, <- Nat.negb_odd.
  rewrite negb_involutive. lia.
Qed.

(** X13. [luhn] catches the exchange of two neighbouring digits, unless
    they are equal or are 0 and 9: exchanging them in a string of digits
    that passes gives a string that fails. *)
Theorem luhn_detects_transposition pre a b post :
  forallb is_digit (pre ++ a :: b :: post) = true ->
  a <> b ->
  ~ (a = 48%N /\ b = 57%N) -> ~ (a = 57%N /\ b = 48%N) ->
  luhn (pre ++ a :: b :: post) = true ->
  luhn (pre ++ b :: a :: post) = false.
Proof.
  intros Hs Hne H09 H90.
  assert (is_digit a = true /\ is_digit b = true) as [Ha Hb].
  { rewrite forallb_app in Hs. cbn [forallb] in Hs.
    apply andb_prop in Hs as [_ [? [? _]%andb_prop]%andb_prop]. done. }
  assert (forallb is_digit (pre ++ b :: a :: post) = true) as Hs'.
  { rewrite forallb_app in *. cbn [forallb] in *.
    apply andb_prop in Hs as [-> [_ [_ ->]%andb_prop]%andb_prop].
    by rewrite Ha, Hb. }
  rewrite !luhn_digits, !luhn_sum_at2 by done.
  apply is_digit_range in Ha, Hb.
  assert (Z.of_N a <> Z.of_N b) by (intros ?%N2Z.inj; done).
  assert (~ (Z.of_N a = 48 /\ Z.of_N b = 57)) by lia.
  assert (~ (Z.of_N a = 57 /\ Z.of_N b = 48)) by lia.
  intros Hok%Z.eqb_eq. apply Z.eqb_neq. intros Hok'. revert Hok Hok'.
  unfold luhn_digit.
  destruct (Nat.odd (length post)); cbn [negb];
    destruct (Z.gtb_spec ((Z.of_N a - 48) * 2) 9),
             (Z.gtb_spec ((Z.of_N b - 48) * 2) 9);
    intros; Z.to_euclidean_division_equations; lia.
Qed.

Lemma luhn_detects_transposition_witness : luhn (str "2442") = false.
Proof.
  apply (luhn_detects_transposition [] 52%N 50%N (str "42"));
    (reflexivity || (intros [? ?]; discriminate) || discriminate).
Defined.

(** ** uniq *)

Lemma Set_add_spec x s v : v ∈ Set_add x s <-> v ∈ s \/ v = x.
Proof.
  unfold Set_add. case_bool_decide as Hx.
  - split; [auto|]. intros [?| ->]; done.
  - rewrite elem_of_app, list_elem_of_singleton. done.
Qed.

Lemma Set_add_NoDup x s : NoDup s -> NoDup (Set_add x s).
Proof.
  intros Hs. unfold Set_add. case_bool_decide as Hx; [done|].
  apply NoDup_app. split; [done|]. split; [|apply NoDup_singleton].
  intros v Hv ->%list_elem_of_singleton. done.
Qed.

Lemma fold_Set_add_spec arr s v :
  v ∈ fold_left (fun s x => Set_add x s) arr s <-> v ∈ s \/ v ∈ arr.
Proof.
  revert s. induction arr as [|x arr IH]; intros s; cbn [fold_left].
  - rewrite elem_of_nil. tauto.
  - rewrite IH, Set_add_spec, elem_of_cons. tauto.
Qed.

Lemma fold_Set_add_NoDup arr s :
  NoDup s -> NoDup (fold_left (fun s x => Set_add x s) arr s).
Proof.
  revert s. induction arr as [|x arr IH]; intros s Hs; [done|].
  apply IH. by apply Set_add_NoDup.
Qed.

Lemma fold_Set_add_prefix arr s :
  s `prefix_of` fold_left (fun s x => Set_add x s) arr s.
Proof.
  revert s. induction arr as [|x arr IH]; intros s; cbn [fold_left]; [done|].
  etrans; [|apply IH]. unfold Set_add. case_bool_decide; [done|].
  by apply prefix_app_r.
Qed.

(** What is new in [arr] for a set [s], in order of first occurrence. *)
Lemma fold_Set_add_sublist arr s :
  exists new, fold_left (fun s x => Set_add x s) arr s = s ++ new
              /\ sublist new arr.
Proof.
  revert s. induction arr as [|x arr IH]; intros s; cbn [fold_left].
  - exists []. by rewrite app_nil_r.
  - destruct (IH (Set_add x s)) as (new & -> & Hsub). unfold Set_add.
    case_bool_decide.
    + exists new. split; [done|]. by apply sublist_cons.
    + exists (x :: new). rewrite <- app_assoc. split; [done|].
      by apply sublist_skip.
Qed.

Lemma first_text_at_middle pre (p : list N) rest :
  first_text_at (pre ++ p :: rest) (length pre)
  = if bool_decide (p ∈ pre) then None else Some p.
Proof.
  unfold first_text_at. by rewrite list_lookup_middle, take_app_length.
Qed.

Lemma new_Set_first_from pre suf acc :
  (forall x, x ∈ acc <-> x ∈ pre) ->
  fold_left (fun s x => Set_add x s) suf acc
  = acc ++ omap (first_text_at (pre ++ suf)) (seq (length pre) (length suf)).
Proof.
  revert pre acc.
  induction suf as [|p rest IH]; intros pre acc Hacc;
    [by rewrite app_nil_r|].
  cbn [fold_left length seq omap list_omap]. rewrite first_text_at_middle.
  rewrite (cons_middle p pre rest), app_assoc.
  assert (S (length pre) = length (pre ++ [p])) as ->
    by (rewrite length_app; cbn; lia).
  unfold Set_add at 2.
  rewrite (bool_decide_ext (p ∈ acc) (p ∈ pre)) by apply Hacc.
  case_bool_decide as Hp.
  - apply IH. intros x. rewrite elem_of_app, list_elem_of_singleton, Hacc.
    split; [tauto|]. intros [?| ->]; done.
  - rewrite (IH (pre ++ [p]) (acc ++ [p])).
    + by rewrite <- app_assoc.
    + intros x. rewrite !elem_of_app, Hacc. tauto.
Qed.

Lemma new_Set_first arr : new_Set arr = first_texts arr.
Proof. apply (new_Set_first_from [] arr []). tauto. Qed.

(** X14. [uniq] returns the first 500 of the different strings of the
    array, in the order of their first occurrence there: the entries of
    the array that do not occur earlier in it, in their order, cut after
    500.  So it returns at most 500 strings, all different and all from
    the array; and when the array holds at most 500 different strings,
    none is lost. *)
Theorem uniq_spec arr :
  uniq arr = take 500 (first_texts arr)
  /\ NoDup (uniq arr)
  /\ (length (uniq arr) <= 500)%nat
  /\ sublist (uniq arr) arr
  /\ ((length (first_texts arr) <= 500)%nat ->
      forall x, x ∈ arr -> x ∈ uniq arr).
Proof.
  split; [unfold uniq; by rewrite new_Set_first|].
  rewrite <- new_Set_first. unfold uniq, new_Set. repeat split.
  - eapply sublist_NoDup; [|apply sublist_take].
    apply fold_Set_add_NoDup, NoDup_nil_2.
  - rewrite length_take. lia.
  - destruct (fold_Set_add_sublist arr []) as (new & -> & Hsub).
    cbn [app]. etrans; [apply sublist_take|done].
  - intros Hlen x Hx. rewrite take_ge by done.
    apply fold_Set_add_spec. by right.
Qed.

Lemma uniq_spec_witness :
  str "c@d.co" ∈ uniq [str "a@b.co"; str "c@d.co"; str "a@b.co"].
Proof.
  apply (proj2 (proj2 (proj2 (proj2 (uniq_spec _))))).
  - vm_compute. lia.
  - apply list_elem_of_In. simpl. auto.
Defined.

(** ** Page selections of the tool handlers *)

Lemma parseRanges_trim value max :
  parseRanges (trim value) max = parseRanges value max.
Proof. by rewrite !parseRanges_flat_map, parts_trim. Qed.

Lemma NoDup_parseRanges s maxPages : NoDup (parseRanges s maxPages).
Proof. rewrite parseRanges_working. apply NoDup_filter_unseen. Qed.

(** What the handlers rely on holds of either binding of [parseRanges]. *)
Lemma global_parseRanges_trim g value max :
  global_parseRanges g (trim value) max = global_parseRanges g value max.
Proof.
  destruct g; cbn [global_parseRanges]; [apply parseRanges_trim|].
  by rewrite !App_parseRanges_flat_map, parts_trim.
Qed.

Lemma NoDup_global_parseRanges g s maxPages :
  NoDup (global_parseRanges g s maxPages).
Proof.
  destruct g; cbn [global_parseRanges]; [apply NoDup_parseRanges|].
  rewrite App_parseRanges_flat_map. apply NoDup_filter_unseen.
Qed.

Lemma global_parseRanges_valid g s maxPages :
  valid_pages maxPages (global_parseRanges g s maxPages).
Proof.
  destruct g; cbn [global_parseRanges]; [apply parseRanges_valid|].
  rewrite App_parseRanges_flat_map.
  apply filter_unseen_valid. unfold valid_pages.
  apply Forall_flat_map, Forall_forall. intros part _.
  apply App_process_part_valid.
Qed.

(** Whatever the binding, the pages are among those the module selects. *)
Lemma global_parseRanges_in_module g s maxPages v :
  v ∈ global_parseRanges g s maxPages -> v ∈ parseRanges s maxPages.
Proof.
  destruct g; cbn [global_parseRanges]; [done|].
  rewrite parseRanges_flat_map, App_parseRanges_flat_map.
  rewrite !elem_of_filter_unseen, !list_elem_of_In, !in_flat_map.
  intros [(part & Hin & Hv) Hnot]. split; [|done].
  exists part. split; [done|].
  apply list_elem_of_In, App_part_subset. by apply list_elem_of_In.
Qed.

Lemma Array_from_succ max : Array_from max (fun i => i + 1) = pages 1 max.
Proof.
  unfold Array_from, pages.
  rewrite (list_fmap_ext _ (Z.add 1)) by (intros; lia).
  rewrite fmap_add_seqZ. f_equal. lia.
Qed.

Lemma NoDup_fmap_pred (l : list Z) :
  NoDup l -> NoDup ((fun p => p - 1) <$> l).
Proof. apply NoDup_fmap_2_strong. intros x y _ _ H. lia. Qed.

(** X15. Extract copies valid pages only, whichever definition the global
    [parseRanges] is bound to: either that definition finds no valid page
    in the field, and the handler throws, or the indices the handler hands
    to the library are the pages that definition returns, less one:
    zero-based indices of existing pages, each at most once, in the order
    of the field, and each the index of a page that the module selects
    for the field. *)
Theorem extract_indices_spec g value max :
  match extract_indices g value max with
  | None => global_parseRanges g value max = []
  | Some indices =>
      indices <> []
      /\ NoDup indices
      /\ Forall (fun i => 0 <= i < max) indices
      /\ indices = (fun p => p - 1) <$> global_parseRanges g value max
      /\ forall i, i ∈ indices -> i + 1 ∈ parseRanges value max
  end.
Proof.
  unfold extract_indices.
  pose proof (NoDup_global_parseRanges g value max) as Hnd.
  pose proof (global_parseRanges_valid g value max) as Hv.
  pose proof (global_parseRanges_in_module g value max) as Hin.
  destruct (global_parseRanges g value max) as [|p l] eqn:E; [done|].
  cbn [length Nat.eqb]. split; [done|]. split; [|split; [|split]].
  - by apply NoDup_fmap_pred.
  - apply Forall_fmap. eapply Forall_impl; [exact Hv|].
    intros v Hp. unfold compose. cbv beta in *. lia.
  - done.
  - intros i (v & -> & Hvin)%list_elem_of_fmap.
    replace (v - 1 + 1) with v by lia. by apply Hin.
Qed.

(** X16. Rotate, whichever definition the global [parseRanges] is bound
    to: a field that is blank (empty or white space only) selects every
    page from 1 to [max]; any other field selects what that definition
    reads in it, possibly nothing.  Either way the pages are existing
    pages, each at most once. *)
Theorem rotate_pages_spec g value max :
  rotate_pages g value max
  = (if truthy (trim value) then global_parseRanges g value max
     else pages 1 max)
  /\ NoDup (rotate_pages g value max)
  /\ Forall (fun p => 1 <= p <= max) (rotate_pages g value max).
Proof.
  unfold rotate_pages. rewrite global_parseRanges_trim, Array_from_succ.
  split; [done|].
  destruct (truthy (trim value)).
  - split; [apply NoDup_global_parseRanges|apply global_parseRanges_valid].
  - split; [apply NoDup_pages|].
    apply Forall_forall. intros v Hv%elem_of_pages. lia.
Qed.

(** X17. Bulk sign, whichever definition the global [parseRanges] is bound
    to: a blank field selects the last page alone, any other field what
    that definition reads in it; on a document that has a page the pages
    selected are existing pages, each at most once. *)
Theorem sign_pages_spec g value pageCount :
  1 <= pageCount ->
  sign_pages g value pageCount
  = (if truthy (trim value) then global_parseRanges g value pageCount
     else [pageCount])
  /\ NoDup (sign_pages g value pageCount)
  /\ Forall (fun p => 1 <= p <= pageCount) (sign_pages g value pageCount).
Proof.
  intros Hc. unfold sign_pages. rewrite global_parseRanges_trim.
  split; [done|].
  destruct (truthy (trim value)).
  - split; [apply NoDup_global_parseRanges|apply global_parseRanges_valid].
  - split; [apply NoDup_singleton|]. constructor; [lia|constructor].
Qed.

Lemma sign_pages_spec_witness :
  (sign_pages of_module (str "  ") 4 = [4]
   /\ NoDup (sign_pages of_module (str "  ") 4)
   /\ Forall (fun p => 1 <= p <= 4) (sign_pages of_module (str "  ") 4))
  /\ (sign_pages of_app (str "2-3") 4 = App.parseRanges (str "2-3") 4
      /\ NoDup (sign_pages of_app (str "2-3") 4)
      /\ Forall (fun p => 1 <= p <= 4) (sign_pages of_app (str "2-3") 4)).
Proof.
  split.
  - apply (sign_pages_spec of_module (str "  ") 4). lia.
  - apply (sign_pages_spec of_app (str "2-3") 4). lia.
Defined.

(** ** Reverse *)

Lemma fmap_sub_seqZ c m n :
  0 <= n ->
  (fun i => c - i) <$> seqZ m n = rev (seqZ (c - m - n + 1) n).
Proof.
  intros Hn. rewrite <- (Z2Nat.id n) by done. clear Hn.
  generalize (Z.to_nat n). clear n. intros n. revert m.
  induction n as [|n IH]; intros m; [done|].
  rewrite (seqZ_cons m) by lia. rewrite (seqZ_S (c - m - _ + 1)).
  rewrite rev_app_distr. cbn [rev app fmap list_fmap].
  f_equal; [lia|].
  replace (Z.pred (Z.of_nat (S n))) with (Z.of_nat n) by lia.
  rewrite IH. do 2 f_equal. lia.
Qed.

(** X18. Reverse: the indices are those of all the pages from the last to
    the first, so every page is copied exactly once and the page at
    position [i] of the result is the page [max - 1 - i] of the source. *)
Theorem reverse_indices_spec max :
  reverse_indices max = rev (seqZ 0 max)
  /\ reverse_indices max ≡ₚ seqZ 0 max
  /\ forall i, (Z.of_nat i < max) ->
               reverse_indices max !! i = Some (max - 1 - Z.of_nat i).
Proof.
  assert (reverse_indices max = rev (seqZ 0 max)) as H.
  { unfold reverse_indices, Array_from.
    destruct (Z.le_gt_cases 0 max) as [Hm|Hm].
    - rewrite (fmap_sub_seqZ (max - 1)) by done. do 2 f_equal. lia.
    - by rewrite !seqZ_nil by lia. }
  split; [done|]. split.
  - rewrite H. symmetry. apply Permutation_rev.
  - intros i Hi. unfold reverse_indices, Array_from.
    rewrite list_lookup_fmap, lookup_seqZ_lt by done. cbn. f_equal.
Qed.

Lemma reverse_indices_spec_witness :
  reverse_indices 3 !! 0%nat = Some (3 - 1 - Z.of_nat 0).
Proof. apply (proj2 (proj2 (reverse_indices_spec 3)) 0%nat). lia. Defined.

(** ** Odd / even *)

(** Whether the loop keeps the index [i] in mode [mode]. *)
Lemma odd_even_loop_filter fuel i max mode indices :
  0 <= i -> (Z.to_nat (max - i) <= fuel)%nat ->
  odd_even_loop fuel i max mode indices
  = indices
    ++ List.filter
         (fun i => bool_decide (mode = str "odd") && Z.even i
                   || bool_decide (mode = str "even") && Z.odd i)
         (seqZ i (max - i)).
Proof.
  revert i indices. induction fuel as [|fuel IH]; intros i indices Hi Hfuel.
  - cbn [odd_even_loop]. rewrite seqZ_nil by lia. by rewrite app_nil_r.
  - cbn [odd_even_loop]. destruct (Z.ltb_spec i max) as [Hlt|Hge].
    2:{ rewrite seqZ_nil by lia. by rewrite app_nil_r. }
    rewrite IH by lia. rewrite (seqZ_cons i) by lia. cbn [List.filter].
    replace (Z.pred (max - i)) with (max - (i + 1)) by lia.
    replace (Z.succ i) with (i + 1) by lia.
    assert ((Z.rem (i + 1) 2 =? 1) = Z.even i) as ->.
    { rewrite Z.rem_mod_nonneg by lia. rewrite (Zeven_mod i).
      apply eq_true_iff_eq. rewrite !Z.eqb_eq.
      Z.to_euclidean_division_equations. lia. }
    assert ((Z.rem (i + 1) 2 =? 0) = Z.odd i) as ->.
    { rewrite Z.rem_mod_nonneg by lia. rewrite (Zodd_mod i).
      apply eq_true_iff_eq. rewrite !Z.eqb_eq.
      Z.to_euclidean_division_equations. lia. }
    destruct (bool_decide (mode = str "odd")) eqn:Eo;
      destruct (bool_decide (mode = str "even")) eqn:Ee;
      destruct (Z.even i) eqn:Ev; rewrite <- ?Z.negb_even, ?Ev;
      cbn [andb orb negb]; rewrite <- ?app_assoc; done.
Qed.

Lemma filter_even_odd l :
  List.filter Z.even l ++ List.filter Z.odd l ≡ₚ l.
Proof.
  induction l as [|x l IH]; [done|]. cbn [List.filter].
  rewrite <- Z.negb_even. destruct (Z.even x); cbn [negb app].
  - by constructor.
  - rewrite <- Permutation_middle. by constructor.
Qed.

(** X19. Odd / even: mode [odd] (also the default of a blank mode) gives
    the even indices below [max], that is the pages 1, 3, 5, ...; mode
    [even] gives the odd indices, the pages 2, 4, 6, ...; both in ascending
    order.  Together the two modes take every page exactly once. *)
Theorem odd_even_indices_spec max :
  odd_even_indices (str "odd") max = List.filter Z.even (seqZ 0 max)
  /\ odd_even_indices (str "even") max = List.filter Z.odd (seqZ 0 max)
  /\ odd_even_indices [] max = odd_even_indices (str "odd") max
  /\ odd_even_indices (str "odd") max ++ odd_even_indices (str "even") max
     ≡ₚ seqZ 0 max.
Proof.
  assert (odd_even_indices (str "odd") max = List.filter Z.even (seqZ 0 max))
    as Ho.
  { unfold odd_even_indices. rewrite odd_even_loop_filter by lia.
    rewrite Z.sub_0_r. cbn [app]. apply List.filter_ext. intros i.
    by destruct (Z.even i). }
  assert (odd_even_indices (str "even") max = List.filter Z.odd (seqZ 0 max))
    as He.
  { unfold odd_even_indices. rewrite odd_even_loop_filter by lia.
    rewrite Z.sub_0_r. cbn [app]. apply List.filter_ext. intros i.
    by destruct (Z.odd i). }
  split; [done|]. split; [done|]. split; [done|].
  rewrite Ho, He. apply filter_even_odd.
Qed.

(** ** Reorder *)

Lemma size_list_to_set_le (l : list Z) :
  (size (list_to_set l : gset Z) <= length l)%nat.
Proof.
  induction l as [|x l IH]; [done|].
  rewrite list_to_set_cons, size_union_alt, size_singleton. cbn [length].
  pose proof (subseteq_size (list_to_set l ∖ {[x]}) (list_to_set l : gset Z)
                ltac:(set_solver)). lia.
Qed.

Lemma size_list_to_set_NoDup (l : list Z) :
  size (list_to_set l : gset Z) = length l -> NoDup l.
Proof.
  induction l as [|x l IH]; [constructor|].
  rewrite list_to_set_cons. cbn [length]. intros Hsize.
  pose proof (size_list_to_set_le l) as Hle.
  destruct (decide (x ∈ l)) as [Hx|Hx].
  - assert ({[x]} ∪ list_to_set l = (list_to_set l : gset Z)) as Heq
      by set_solver.
    rewrite Heq in Hsize. lia.
  - rewrite size_union, size_singleton in Hsize by set_solver.
    apply NoDup_cons. split; [done|]. apply IH. lia.
Qed.

Lemma in_range_Forall max (seq : list Z) :
  existsb (fun n => (n <? 1) || (n >? max)) seq = false
  <-> Forall (fun n => 1 <= n <= max) seq.
Proof.
  induction seq as [|n seq IH]; cbn [existsb].
  - split; [constructor|done].
  - rewrite orb_false_iff, IH, Forall_cons.
    destruct (Z.ltb_spec n 1), (Z.gtb_spec n max); cbn [orb];
      split; intros [? ?]; (done || lia || (split; [lia|done])).
Qed.

(** What the three checks accept. *)
Lemma reorder_accepts value max :
  (exists indices, reorder_indices value max = inr indices)
  <-> Z.of_nat (length (order_seq value)) = max
      /\ NoDup (order_seq value)
      /\ Forall (fun n => 1 <= n <= max) (order_seq value).
Proof.
  unfold reorder_indices. set (seq := order_seq value).
  destruct (Z.eqb_spec (Z.of_nat (length seq)) max) as [Hlen|Hlen];
    cbn [negb]; [|split; [intros [? [=]]|intros [? _]; done]].
  destruct (Z.eqb_spec (Z.of_nat (size (list_to_set seq : gset Z))) max)
    as [Hsize|Hsize]; cbn [negb].
  - assert (NoDup seq) as Hnd by (apply size_list_to_set_NoDup; lia).
    destruct (existsb _ seq) eqn:Hex.
    + split; [intros [? [=]]|]. intros (_ & _ & Hr%in_range_Forall).
      congruence.
    + split; [|by eexists]. intros _. by apply in_range_Forall in Hex.
  - split; [intros [? [=]]|]. intros (_ & Hnd & _).
    rewrite size_list_to_set in Hsize by done. done.
Qed.

Lemma reorder_accepts_perm value max :
  0 <= max ->
  (exists indices, reorder_indices value max = inr indices)
  <-> order_seq value ≡ₚ seqZ 1 max.
Proof.
  intros Hmax. rewrite reorder_accepts. split.
  - intros (Hlen & Hnd & Hr). apply submseteq_length_Permutation.
    + apply NoDup_submseteq; [done|]. intros n Hn. apply elem_of_seqZ.
      rewrite Forall_forall in Hr. specialize (Hr n Hn). lia.
    + rewrite length_seqZ. lia.
  - intros Hp. repeat split.
    + rewrite Hp, length_seqZ. lia.
    + rewrite Hp. apply NoDup_seqZ.
    + rewrite Hp. apply Forall_seqZ. intros; lia.
Qed.

Lemma reorder_indices_inr value max indices :
  reorder_indices value max = inr indices ->
  indices = (fun n => n - 1) <$> order_seq value.
Proof.
  unfold reorder_indices. intros Hok.
  repeat match type of Hok with
         | (if ?c then _ else _) = _ => destruct c; [discriminate|]
         end.
  by injection Hok as <-.
Qed.




Lemma order_seq_comma s1 s2 :
  order_seq (s1 ++ comma :: s2) = order_seq s1 ++ order_seq s2.
Proof. unfold order_seq. by rewrite split_comma_app, omap_app. Qed.

Lemma order_seq_decimal n : 0 <= n -> order_seq (decimal n) = [n].
Proof.
  intros Hn. unfold order_seq.
  pose proof (one_token_bare (decimal n) (decimal_nonempty n)
                (decimal_digits n Hn)) as Ht.
  unfold one_token in Ht. rewrite !andb_true_iff, !negb_true_iff in Ht.
  destruct Ht as [[[_ H1] H2] Hc].
  rewrite split_comma_no_comma by done. cbn [omap list_omap].
  rewrite trim_id by done.
  rewrite parseInt_group by (apply decimal_nonempty || by apply decimal_digits).
  by rewrite digits_value_decimal.
Qed.

Lemma order_seq_comma_join ns :
  Forall (fun n => 0 <= n) ns -> order_seq (comma_join ns) = ns.
Proof.
  induction ns as [|n ns IH]; [done|].
  intros [Hn Hns]%Forall_cons. specialize (IH Hns).
  destruct ns as [|m ns]; [by apply order_seq_decimal|].
  change (comma_join (n :: m :: ns))
    with (decimal n ++ comma :: comma_join (m :: ns)).
  by rewrite order_seq_comma, order_seq_decimal, IH.
Qed.

(** X21. A page order typed as decimal numerals separated by commas is read
    back as it was typed: when it names the pages 1 to [max], each once,
    Reorder accepts it and copies the pages in that order. *)
Theorem reorder_accepts_written_order ns max :
  0 <= max -> ns ≡ₚ seqZ 1 max ->
  order_seq (comma_join ns) = ns
  /\ reorder_indices (comma_join ns) max = inr ((fun n => n - 1) <$> ns).
Proof.
  intros Hmax Hp.
  assert (order_seq (comma_join ns) = ns) as Hseq.
  { apply order_seq_comma_join. rewrite Hp. apply Forall_seqZ. intros; lia. }
  split; [done|].
  destruct (proj2 (reorder_accepts_perm (comma_join ns) max Hmax))
    as [indices Hok]; [by rewrite Hseq|].
  rewrite Hok. f_equal.
  apply reorder_indices_inr in Hok. by rewrite Hseq in Hok.
Qed.

Lemma reorder_accepts_written_order_witness :
  order_seq (comma_join [2; 3; 1]) = [2; 3; 1]
  /\ reorder_indices (comma_join [2; 3; 1]) 3
     = inr ((fun n => n - 1) <$> [2; 3; 1]).
Proof.
  apply (reorder_accepts_written_order [2; 3; 1] 3); [lia|].
  vm_compute. apply (perm_trans (l' := [2; 1; 3])).
  - apply perm_skip, perm_swap.
  - apply perm_swap.
Defined.

(** ** The file list *)

Lemma same_file_found st f :
  existsb (fun x => bool_decide (file_name x = file_name f)
                    && (file_size x =? file_size f)) st = true
  <-> file_key f ∈ file_key <$> st.
Proof.
  rewrite existsb_exists, list_elem_of_fmap. unfold file_key.
  split.
  - intros (x & Hx%list_elem_of_In & [Hn%bool_decide_eq_true Hs%Z.eqb_eq]%andb_prop).
    exists x. by rewrite Hn, Hs.
  - intros (x & [= Hn Hs] & Hx). exists x. split; [by apply list_elem_of_In|].
    rewrite Hn, Hs, Z.eqb_refl. by rewrite bool_decide_eq_true_2.
Qed.

Lemma addFiles_cons f files st :
  addFiles (f :: files) st
  = addFiles files (if existsb (fun x => bool_decide (file_name x = file_name f)
                                         && (file_size x =? file_size f)) st
                    then st else st ++ [f]).
Proof. done. Qed.

Lemma addFiles_prefix files st : st `prefix_of` addFiles files st.
Proof.
  revert st. induction files as [|f files IH]; intros st; [done|].
  rewrite addFiles_cons. etrans; [|apply IH].
  destruct (existsb _ st); [done|]. by apply prefix_app_r.
Qed.

Lemma addFiles_keys_stay files st k :
  k ∈ file_key <$> st -> k ∈ file_key <$> addFiles files st.
Proof.
  destruct (addFiles_prefix files st) as [more ->].
  rewrite fmap_app, elem_of_app. auto.
Qed.

Lemma addFiles_NoDup files st :
  NoDup (file_key <$> st) -> NoDup (file_key <$> addFiles files st).
Proof.
  revert st. induction files as [|f files IH]; intros st Hst; [done|].
  rewrite addFiles_cons. apply IH.
  destruct (existsb _ st) eqn:E; [done|].
  rewrite fmap_app. apply NoDup_app. split; [done|].
  split; [|apply NoDup_singleton].
  intros k Hk ->%list_elem_of_singleton.
  apply same_file_found in Hk. congruence.
Qed.

Lemma addFiles_present files st f :
  f ∈ files -> file_key f ∈ file_key <$> addFiles files st.
Proof.
  revert st. induction files as [|g files IH]; intros st; [by inversion 1|].
  rewrite elem_of_cons, addFiles_cons. intros [->|Hf]; [|by apply IH].
  apply addFiles_keys_stay.
  destruct (existsb _ st) eqn:E; [by apply same_file_found|].
  rewrite fmap_app, elem_of_app. right. by apply list_elem_of_singleton.
Qed.

Lemma addFiles_known files st :
  (forall f, f ∈ files -> file_key f ∈ file_key <$> st) ->
  addFiles files st = st.
Proof.
  induction files as [|f files IH]; intros Hk; [done|].
  rewrite addFiles_cons.
  rewrite (proj2 (same_file_found st f)) by (apply Hk; left).
  apply IH. intros g Hg. apply Hk. by right.
Qed.

(** X22. Adding files keeps the list free of doubles: if no two files of
    the list share name and size, the same holds after [addFiles].  The
    files already listed stay where they are, every file added is then
    listed (itself or one of the same name and size), and adding the same
    files again changes nothing. *)
Theorem addFiles_spec files st :
  (NoDup (file_key <$> st) -> NoDup (file_key <$> addFiles files st))
  /\ st `prefix_of` addFiles files st
  /\ (forall f, f ∈ files -> file_key f ∈ file_key <$> addFiles files st)
  /\ addFiles files (addFiles files st) = addFiles files st.
Proof.
  split; [apply addFiles_NoDup|]. split; [apply addFiles_prefix|].
  split; [intros; by apply addFiles_present|].
  apply addFiles_known. intros. by apply addFiles_present.
Qed.

Lemma addFiles_spec_witness :
  NoDup (file_key <$>
           addFiles [ {| file_name := str "a.pdf"; file_size := 10;
                         file_type := str "application/pdf" |};
                      {| file_name := str "a.pdf"; file_size := 10;
                         file_type := str "application/pdf" |} ]
                    [ {| file_name := str "b.pdf"; file_size := 7;
                         file_type := str "application/pdf" |} ]).
Proof.
  apply (proj1 (addFiles_spec _ _)). apply NoDup_singleton.
Defined.

(** ** Bates numbers *)

Lemma digits_value_app l1 l2 :
  digits_value (l1 ++ l2)
  = fold_left (fun v d => 10 * v + (Z.of_N d - 48)) l2 (digits_value l1).
Proof. unfold digits_value. apply fold_left_app. Qed.

Lemma digits_value_zeros k : digits_value (replicate k 48%N) = 0.
Proof.
  induction k as [|k IH] using nat_ind; [done|].
  rewrite replicate_S_end, digits_value_snoc, IH. done.
Qed.

Lemma forallb_replicate_zero k : forallb is_digit (replicate k 48%N) = true.
Proof. induction k as [|k IH]; [done|]. cbn. done. Qed.

Lemma parseInt_padded k g :
  g <> [] -> forallb is_digit g = true ->
  parseInt (replicate k 48%N ++ g) = Some (digits_value g).
Proof.
  intros Hne Hg. rewrite parseInt_group.
  - by rewrite digits_value_app, digits_value_zeros.
  - intros [_ ?]%app_eq_nil. done.
  - by rewrite forallb_app, forallb_replicate_zero.
Qed.

Lemma decimal_rev_length fuel n k :
  n < 10 ^ Z.of_nat (S k) -> (length (decimal_rev fuel n) <= S k)%nat.
Proof.
  revert n k. induction fuel as [|fuel IH]; intros n k Hn; cbn [decimal_rev];
    [cbn; lia|].
  cbn [length]. destruct (Z.ltb_spec n 10) as [Hlt|Hge]; [cbn; lia|].
  destruct k as [|k]; [cbn in Hn; lia|].
  apply le_n_S, IH.
  rewrite (Nat2Z.inj_succ (S k)), Z.pow_succ_r in Hn by lia.
  apply Z.div_lt_upper_bound; lia.
Qed.

Lemma decimal_length_safe n :
  n <= max_safe_integer -> Z.of_nat (length (decimal n)) <= 16.
Proof.
  intros Hn. unfold decimal. rewrite length_rev.
  pose proof (decimal_rev_length (S (Z.to_nat (Z.log2 n))) n 15) as H.
  enough (length (decimal_rev (S (Z.to_nat (Z.log2 n))) n) <= 16)%nat by lia.
  apply H. unfold max_safe_integer in Hn.
  eapply Z.le_lt_trans; [exact Hn|]. reflexivity.
Qed.

(** Within the range of the model the number of a label is the decimal
    numeral of [start + i], with zeros before it up to [zeros]
    characters. *)
Lemma bates_number_safe start zeros i :
  1 <= start -> 0 <= i -> start + i < 2 ^ 53 ->
  zeros <= max_string_length ->
  bates_number start zeros i
  = Some (replicate
            (Z.to_nat (zeros - Z.of_nat (length (decimal (start + i)))))
            48%N ++ decimal (start + i)).
Proof.
  intros Hs Hi Hsum Hz. unfold bates_number, safe_sum.
  assert (start + i <= max_safe_integer) as Hsafe
    by (unfold max_safe_integer; lia).
  destruct (Z.leb_spec 0 start); [|lia].
  destruct (Z.leb_spec 0 i); [|lia].
  destruct (Z.leb_spec (start + i) max_safe_integer); [|lia].
  cbn [andb]. unfold padStart, built.
  pose proof (decimal_length_safe (start + i) Hsafe) as Hlen.
  rewrite length_app, length_replicate.
  assert (16 <= max_string_length) by done.
  by destruct (Z.leb_spec
                 (Z.of_nat
                    (Z.to_nat (zeros - Z.of_nat (length (decimal (start + i))))
                     + length (decimal (start + i))))
                 max_string_length); [|lia].
Qed.

Lemma bates_label_safe prefix start zeros i :
  1 <= start -> 0 <= i -> start + i < 2 ^ 53 ->
  Z.of_nat (length prefix) + Z.max zeros 16 <= max_string_length ->
  exists n,
    bates_number start zeros i = Some n
    /\ bates_label prefix start zeros i = Some (prefix ++ n)
    /\ parseInt n = Some (start + i).
Proof.
  intros Hs Hi Hsum Hz. unfold bates_label.
  rewrite bates_number_safe by (done || lia).
  eexists. split; [done|]. split.
  - unfold built. rewrite !length_app, length_replicate.
    assert (start + i <= max_safe_integer) as Hsafe
      by (unfold max_safe_integer; lia).
    pose proof (decimal_length_safe (start + i) Hsafe) as Hlen.
    by destruct (Z.leb_spec
                   (Z.of_nat
                      (length prefix
                       + (Z.to_nat
                            (zeros - Z.of_nat (length (decimal (start + i))))
                          + length (decimal (start + i)))))
                   max_string_length); [|lia].
  - rewrite parseInt_padded
      by (apply decimal_nonempty || apply decimal_digits; lia).
    apply f_equal, digits_value_decimal. lia.
Qed.

(** X23. Bates labels, for a first number from 1, page indices from 0, as
    long as the number of the page stays below 2^53 and the label is no
    longer than a string can be (the prefix and [zeros] or the 16 digits
    of a number, whichever is more, within [max_string_length]).  The
    number of the label is the decimal numeral of [start + i] with zeros
    before it; it reads back as the page's number, [parseInt] of it is
    [start + i], whatever the padding; it is at least [zeros] characters
    long; and two pages of a document get different labels. *)
Theorem bates_number_spec prefix start zeros i :
  1 <= start -> 0 <= i -> start + i < 2 ^ 53 ->
  Z.of_nat (length prefix) + Z.max zeros 16 <= max_string_length ->
  exists n,
    bates_number start zeros i = Some n
    /\ bates_label prefix start zeros i = Some (prefix ++ n)
    /\ n = replicate
             (Z.to_nat (zeros - Z.of_nat (length (decimal (start + i)))))
             48%N ++ decimal (start + i)
    /\ parseInt n = Some (start + i)
    /\ (Z.to_nat zeros <= length n)%nat
    /\ (forall j, 0 <= j -> start + j < 2 ^ 53 ->
                  bates_label prefix start zeros j
                  = bates_label prefix start zeros i -> j = i).
Proof.
  intros Hs Hi Hsum Hz.
  destruct (bates_label_safe prefix start zeros i) as (n & Hn & Hl & Hread);
    try done.
  exists n. split; [done|]. split; [done|].
  assert (n = replicate
                (Z.to_nat (zeros - Z.of_nat (length (decimal (start + i)))))
                48%N ++ decimal (start + i)) as Hform.
  { rewrite bates_number_safe in Hn by (done || lia). by injection Hn. }
  split; [done|]. split; [done|]. split.
  - rewrite Hform, length_app, length_replicate. lia.
  - intros j Hj Hsumj Heq.
    destruct (bates_label_safe prefix start zeros j)
      as (m & _ & Hlj & Hreadj); try done.
    rewrite Hl, Hlj in Heq. injection Heq as Heq.
    apply app_inv_head in Heq. rewrite Heq, Hread in Hreadj.
    injection Hreadj. lia.
Qed.

Lemma bates_number_spec_witness :
  exists n,
    bates_number 1 5 11 = Some n
    /\ bates_label (str "CASE-") 1 5 11 = Some (str "CASE-" ++ n)
    /\ parseInt n = Some (1 + 11).
Proof.
  destruct (bates_number_spec (str "CASE-") 1 5 11)
    as (n & Hn & Hl & _ & Hread & _);
    [lia|lia|reflexivity|by vm_compute|].
  exists n. by split; [|split].
Defined.

(** ** Option fields *)

(** X24. A numeric option is never below its lowest value.  A positive
    number below 2^53 typed in decimal is taken as it is (raised to the
    lowest value if it is below), but a typed zero is falsy and is
    replaced by the default: where the default is not 0, the value 0
    cannot be entered. *)
Theorem read_int_spec lowest text dflt :
  (forall value, lowest <= read_int lowest text dflt value)
  /\ (forall n, 0 < n < 2 ^ 53 ->
                read_int lowest text dflt (decimal n) = Z.max lowest n)
  /\ (forall g, g <> [] -> forallb is_digit g = true -> digits_value g = 0 ->
                read_int lowest text dflt g = Z.max lowest dflt).
Proof.
  split; [intros; unfold read_int; lia|]. split.
  - intros n [Hn _]. unfold read_int, or_text.
    pose proof (decimal_nonempty n).
    destruct (decimal n) as [|d ds] eqn:E; [done|]. cbn [truthy].
    rewrite <- E, parseInt_group
      by (apply decimal_nonempty || apply decimal_digits; lia).
    rewrite digits_value_decimal by lia. cbn [or_number].
    destruct (Z.eqb_spec n 0); [lia|done].
  - intros g Hne Hg H0. unfold read_int, or_text.
    destruct g as [|d ds] eqn:E; [done|]. cbn [truthy].
    rewrite <- E in *. rewrite parseInt_group by done.
    by rewrite H0.
Qed.

Lemma read_int_spec_witness :
  read_int 0 (str "5") 5 (decimal 3) = Z.max 0 3
  /\ read_int 0 (str "18") 18 (str "0") = Z.max 0 18.
Proof.
  split.
  - apply (proj1 (proj2 (read_int_spec 0 (str "5") 5)) 3).
    split; [lia|reflexivity].
  - apply (proj2 (proj2 (read_int_spec 0 (str "18") 18)) (str "0"));
      (discriminate || reflexivity).
Defined.

(** ** Credit-card candidates *)

Lemma forallb_filter_digits x : forallb is_digit (List.filter is_digit x) = true.
Proof.
  apply forallb_forall. intros c Hc. by apply List.filter_In in Hc as [_ ?].
Qed.

(** X25. A credit-card candidate is kept exactly when it holds 13 to 19
    digits and their weighted sum is a multiple of 10; the characters
    between the digits play no part, and the sum is never [NaN]. *)
Theorem card_filter_spec x :
  card_filter x = true
  <-> (13 <= length (List.filter is_digit x) <= 19)%nat
      /\ luhn_sum (rev (List.filter is_digit x)) false mod 10 = 0.
Proof.
  unfold card_filter. rewrite luhn_digits by apply forallb_filter_digits.
  destruct (Nat.ltb_spec (length (List.filter is_digit x)) 13);
    destruct (Nat.ltb_spec 19 (length (List.filter is_digit x)));
    cbn [orb]; rewrite ?Z.eqb_eq; split; try done; try lia; try tauto.
Qed.

(** ** Remove blank pages *)

Lemma keep_scan_filter fuel p maxPages minChars text_length keep :
  (Z.to_nat (maxPages + 1 - p) <= fuel)%nat ->
  keep_scan fuel p maxPages minChars text_length keep
  = keep
    ++ List.filter (fun i => text_length (i + 1) >=? minChars)
         (seqZ (p - 1) (maxPages + 1 - p)).
Proof.
  revert p keep. induction fuel as [|fuel IH]; intros p keep Hfuel;
    cbn [keep_scan].
  - rewrite seqZ_nil by lia. by rewrite app_nil_r.
  - destruct (Z.leb_spec p maxPages).
    2:{ rewrite seqZ_nil by lia. by rewrite app_nil_r. }
    rewrite IH by lia. rewrite (seqZ_cons (p - 1)) by lia. cbn [List.filter].
    replace (p - 1 + 1) with p by lia.
    replace (Z.succ (p - 1)) with (p + 1 - 1) by lia.
    replace (Z.pred (maxPages + 1 - p)) with (maxPages + 1 - (p + 1)) by lia.
    destruct (text_length p >=? minChars); [|done].
    by rewrite <- app_assoc.
Qed.

Lemma keep_rest_seqZ fuel p numPages keep :
  (Z.to_nat (numPages + 1 - p) <= fuel)%nat ->
  keep_rest fuel p numPages keep = keep ++ seqZ (p - 1) (numPages + 1 - p).
Proof.
  revert p keep. induction fuel as [|fuel IH]; intros p keep Hfuel;
    cbn [keep_rest].
  - rewrite seqZ_nil by lia. by rewrite app_nil_r.
  - destruct (Z.leb_spec p numPages).
    2:{ rewrite seqZ_nil by lia. by rewrite app_nil_r. }
    rewrite IH by lia. rewrite (seqZ_cons (p - 1)) by lia.
    rewrite <- app_assoc. cbn [app]. do 3 f_equal; lia.
Qed.

Lemma scan_limit_le numPages maxCap :
  0 <= maxCap -> scan_limit numPages maxCap <= numPages.
Proof. intros. unfold scan_limit. destruct (maxCap =? 0); lia. Qed.

(** X27. Remove blank pages keeps, among the pages up to the scan limit,
    those whose text reaches the threshold, and every page after the limit;
    the indices are in ascending order and are indices of existing pages.
    With threshold 0 no page is removed. *)
Theorem blank_keep_spec minchars maxpages numPages text_length :
  0 <= numPages ->
  let minChars := read_int 0 (str "1") 0 minchars in
  let limit := scan_limit numPages (read_int 0 (str "0") 0 maxpages) in
  blank_keep minchars maxpages numPages text_length
  = List.filter (fun i => text_length (i + 1) >=? minChars) (seqZ 0 limit)
    ++ seqZ limit (numPages - limit)
  /\ sublist (blank_keep minchars maxpages numPages text_length)
       (seqZ 0 numPages)
  /\ (minChars = 0 -> (forall p, 0 <= text_length p) ->
      blank_keep minchars maxpages numPages text_length = seqZ 0 numPages).
Proof.
  intros Hn minChars limit.
  assert (limit <= numPages) as Hle
    by (apply scan_limit_le; unfold read_int; lia).
  assert (blank_keep minchars maxpages numPages text_length
          = List.filter (fun i => text_length (i + 1) >=? minChars)
              (seqZ 0 limit) ++ seqZ limit (numPages - limit)) as Heq.
  { unfold blank_keep. fold minChars limit.
    rewrite keep_rest_seqZ, keep_scan_filter by lia. cbn [app].
    replace (limit + 1 - 1) with limit by lia.
    replace (numPages + 1 - (limit + 1)) with (numPages - limit) by lia.
    done. }
  split; [done|].
  assert (0 <= limit) as H0.
  { unfold limit, scan_limit, read_int. destruct (_ =? 0); lia. }
  assert (seqZ 0 numPages = seqZ 0 limit ++ seqZ limit (numPages - limit))
    as Hsplit.
  { replace numPages with (limit + (numPages - limit)) at 1 by lia.
    by rewrite seqZ_app by lia. }
  split.
  - rewrite Heq, Hsplit. apply sublist_app; [|done].
    apply sublist_filter_bool.
  - intros Hmin Hpos. rewrite Heq, Hsplit. f_equal.
    apply forallb_filter_id, forallb_forall. intros i _.
    rewrite Hmin. specialize (Hpos (i + 1)).
    destruct (Z.geb_spec (text_length (i + 1)) 0); [done|lia].
Qed.

Lemma blank_keep_spec_witness :
  sublist (blank_keep (str "1") (str "2") 4 (fun p => if p =? 2 then 0 else 10))
    (seqZ 0 4).
Proof.
  pose proof (blank_keep_spec (str "1") (str "2") 4
                (fun p => if p =? 2 then 0 else 10)) as H.
  apply H. lia.
Defined.

(** ** Output names *)

Lemma strip_pdf_cases name :
  strip_pdf name = name
  \/ exists ext, length ext = 4%nat /\ name = strip_pdf name ++ ext.
Proof.
  unfold strip_pdf. destruct (rev name) as [|f [|d [|p [|dot stem]]]] eqn:E;
    auto.
  destruct (_ && _ && _ && _); [|auto]. right.
  exists [dot; p; d; f]. split; [done|].
  rewrite <- (rev_involutive name), E. cbn [rev]. by rewrite <- !app_assoc.
Qed.

Lemma strip_pdf_ext stem dot p d f :
  ((dot =? 46)%N && letter_i 112 p && letter_i 100 d && letter_i 102 f) = true ->
  strip_pdf (stem ++ [dot; p; d; f]) = stem.
Proof.
  intros H. unfold strip_pdf. rewrite rev_app_distr. cbn [rev app].
  rewrite H. apply rev_involutive.
Qed.

Lemma letter_i_spec lower c :
  letter_i lower c = true <-> c = lower \/ c = (lower - 32)%N.
Proof.
  unfold letter_i. rewrite orb_true_iff, !N.eqb_eq. tauto.
Qed.

(** The names that end in the extension: a dot and the letters p, d, f,
    each in either case. *)
Lemma strip_pdf_inv name :
  strip_pdf name <> name ->
  exists stem p d f,
    name = stem ++ [46%N; p; d; f]
    /\ letter_i 112 p = true /\ letter_i 100 d = true
    /\ letter_i 102 f = true
    /\ strip_pdf name = stem.
Proof.
  unfold strip_pdf. destruct (rev name) as [|f [|d [|p [|dot stem]]]] eqn:E;
    try done.
  destruct (_ && _ && _ && _) eqn:H; [|done]. intros _.
  apply andb_prop in H as [H Hf]. apply andb_prop in H as [H Hd].
  apply andb_prop in H as [Hdot Hp]. apply N.eqb_eq in Hdot as ->.
  exists (rev stem), p, d, f. repeat split; try done.
  rewrite <- (rev_involutive name), E. cbn [rev]. by rewrite <- !app_assoc.
Qed.

(** X28. The name of a download.  When the source name ends in the
    extension, a dot and then the letters p, d, f, each in upper or lower
    case, these four characters are removed and the tool's suffix is
    appended to what stands before them; every other name is kept whole
    and the suffix is appended to it: so [report_pdf] keeps its last four
    characters.  The result is longer than the source name, so the
    download never bears the name of the file it was made from. *)
Theorem output_name_spec :
  (forall stem p d f suffix,
      p = 112%N \/ p = 80%N -> d = 100%N \/ d = 68%N ->
      f = 102%N \/ f = 70%N ->
      output_name (stem ++ [46%N; p; d; f]) suffix = stem ++ suffix)
  /\ (forall name suffix,
         ~ (exists stem p d f,
               name = stem ++ [46%N; p; d; f]
               /\ (p = 112%N \/ p = 80%N) /\ (d = 100%N \/ d = 68%N)
               /\ (f = 102%N \/ f = 70%N)) ->
         output_name name suffix = name ++ suffix)
  /\ output_name (str "report_pdf") (str "-extract.pdf")
     = str "report_pdf-extract.pdf"
  /\ (forall name suffix,
         (4 < length suffix)%nat ->
         (length name < length (output_name name suffix))%nat
         /\ output_name name suffix <> name).
Proof.
  split; [|split; [|split]].
  - intros stem p d f suffix Hp Hd Hf. unfold output_name.
    rewrite strip_pdf_ext; [done|].
    by rewrite (proj2 (letter_i_spec 112 p)), (proj2 (letter_i_spec 100 d)),
      (proj2 (letter_i_spec 102 f)).
  - intros name suffix Hno. unfold output_name. f_equal.
    destruct (decide (strip_pdf name = name)) as [|Hne]; [done|].
    destruct (strip_pdf_inv name Hne) as (stem & p & d & f & E & Hp & Hd & Hf & _).
    exfalso. apply Hno. exists stem, p, d, f.
    by rewrite <- (letter_i_spec 112 p), <- (letter_i_spec 100 d),
      <- (letter_i_spec 102 f).
  - reflexivity.
  - intros name suffix Hlen.
    assert (length name < length (output_name name suffix))%nat as Hlt.
    { unfold output_name. rewrite length_app.
      destruct (strip_pdf_cases name) as [->|(ext & Hext & Hname)]; [lia|].
      rewrite Hname at 1. rewrite length_app. lia. }
    split; [done|]. intros Heq. rewrite Heq in Hlt. lia.
Qed.

Lemma output_name_spec_witness :
  output_name (str "Scan.PDF") (str "-rotated.pdf") = str "Scan-rotated.pdf"
  /\ output_name (str "a_pdf") (str "-rotated.pdf") = str "a_pdf-rotated.pdf"
  /\ output_name (str "notes") (str "-rotated.pdf") <> str "notes".
Proof.
  split; [|split].
  - apply (proj1 output_name_spec (str "Scan") 80%N 68%N 70%N
             (str "-rotated.pdf")); by right.
  - apply (proj1 (proj2 output_name_spec) (str "a_pdf") (str "-rotated.pdf")).
    intros (stem & p & d & f & E & _).
    apply (f_equal (@rev N)) in E. rewrite rev_app_distr in E.
    cbn in E. discriminate E.
  - apply (proj2 (proj2 (proj2 output_name_spec)) (str "notes")
             (str "-rotated.pdf")).
    vm_compute. lia.
Defined.

(** ** CSV fields *)

Lemma csv_body_inj v1 v2 :
  flat_map (fun c => if (c =? 34)%N then [34; 34]%N else [c]) v1
  = flat_map (fun c => if (c =? 34)%N then [34; 34]%N else [c]) v2 ->
  v1 = v2.
Proof.
  revert v2. induction v1 as [|c1 v1 IH]; intros [|c2 v2]; cbn [flat_map].
  - done.
  - destruct (c2 =? 34)%N; discriminate.
  - destruct (c1 =? 34)%N; discriminate.
  - destruct (N.eqb_spec c1 34) as [->|H1], (N.eqb_spec c2 34) as [->|H2];
      cbn [app]; intros Heq; simplify_eq; try congruence; f_equal; by apply IH.
Qed.

Lemma quotes_app s1 s2 : quotes (s1 ++ s2) = (quotes s1 + quotes s2)%nat.
Proof. unfold quotes. by rewrite List.filter_app, length_app. Qed.

Lemma quotes_cons c s :
  quotes (c :: s) = ((if (c =? 34)%N then 1 else 0) + quotes s)%nat.
Proof.
  unfold quotes. cbn [List.filter]. rewrite (N.eqb_sym 34 c).
  by destruct (c =? 34)%N.
Qed.

Lemma quotes_body v :
  quotes (flat_map (fun c => if (c =? 34)%N then [34; 34]%N else [c]) v)
  = (2 * quotes v)%nat.
Proof.
  induction v as [|c v IH]; [done|].
  cbn [flat_map]. rewrite quotes_app, IH, (quotes_cons c v).
  destruct (N.eqb_spec c 34) as [->|Hc].
  - rewrite !quotes_cons. cbn. lia.
  - rewrite quotes_cons. rewrite (proj2 (N.eqb_neq c 34)) by done. cbn. lia.
Qed.

(** X29. A CSV field is its value between two double quotes with every
    double quote of the value doubled: the field holds an even number of
    double quotes, and two different values never give the same field. *)
Theorem csv_esc_spec v1 v2 :
  quotes (csv_esc v1) = (2 * (1 + quotes v1))%nat
  /\ (csv_esc v1 = csv_esc v2 -> v1 = v2).
Proof.
  split.
  - unfold csv_esc. rewrite !quotes_app, quotes_body.
    rewrite !quotes_cons. cbn. lia.
  - unfold csv_esc. intros Heq. apply app_inv_head, app_inv_tail in Heq.
    by apply csv_body_inj.
Qed.

Lemma csv_esc_spec_witness : str "a,b" = str "a,b".
Proof. apply (proj2 (csv_esc_spec (str "a,b") (str "a,b"))). reflexivity. Defined.
